(** * Loadout optimizer: item grouping, dominance pruning and dispatch

    A shallow embedding of [src/app/loadout-builder/process/process-wrapper.ts]:
    [mapItemsToGroups] (first-pass bucketing, the pruning loop, final grouping
    and the in-group sort), the item loop of [runProcess] that fills
    [processItems] and [itemsById], and the settlement behaviour of the
    [resultPromise] it returns. *)

From Stdlib Require Import ZArith String Ascii List Lia Permutation.
From Stdlib Require Import DecimalString DecimalZ DecimalPos.
From stdpp Require Import base decidable option list sorting gmap strings.

Local Open Scope string_scope.
Local Open Scope list_scope.
Local Open Scope Z_scope.

(** ** JavaScript primitives used by the source *)

Module Js.

(** [Number.prototype.toString] on a (safe) integer: decimal digits, a
    leading minus sign for negative values. *)
Definition numToString (z : Z) : string :=
  NilZero.string_of_int (Z.to_int z).

(** [Array.prototype.join]. *)
Definition join (sep : string) (l : list string) : string :=
  String.concat sep l.

(** [Array.prototype.toString] on an array of numbers / of strings. *)
Definition numsToString (l : list Z) : string := join "," (map numToString l).
Definition strsToString (l : list string) : string := join "," l.

(** [Array.prototype.sort(cmp)]: a stable sort; [cmp a b <= 0] keeps [a]
    in front of [b]. *)
Fixpoint sortInsert {A} (cmp : A -> A -> Z) (x : A) (l : list A) : list A :=
  match l with
  | [] => [x]
  | y :: l' => if cmp x y <=? 0 then x :: y :: l' else y :: sortInsert cmp x l'
  end.

Fixpoint sort {A} (cmp : A -> A -> Z) (l : list A) : list A :=
  match l with
  | [] => []
  | x :: l' => sortInsert cmp x (sort cmp l')
  end.

(** The default comparator of [sort()] on strings: code-unit order. *)
Definition defaultCompare (a b : string) : Z :=
  match String.compare a b with
  | Lt => -1
  | Eq => 0
  | Gt => 1
  end.

(** A [Set<string>], kept as the list of its values in insertion order. *)
Definition has (s : list string) (x : string) : bool := bool_decide (x ∈ s).

Definition add (s : list string) (x : string) : list string :=
  if has s x then s else s ++ [x].

(** [new Set(iterable)]. *)
Definition newSet (l : list string) : list string := fold_left add l [].

(** [Object.groupBy] / [Map.groupBy]: groups in order of first appearance of
    their key, members in input order. *)
Fixpoint groupAdd {A} (k : string) (x : A) (gs : list (string * list A))
  : list (string * list A) :=
  match gs with
  | [] => [(k, [x])]
  | (k', g) :: gs' =>
      if String.eqb k k' then (k', g ++ [x]) :: gs' else (k', g) :: groupAdd k x gs'
  end.

Definition groupBy {A} (key : A -> string) (l : list A) : list (string * list A) :=
  fold_left (fun gs x => groupAdd (key x) x gs) l [].

(** [Array.prototype.every] / [some] with the index argument. *)
Fixpoint everyFrom {A} (idx : nat) (f : A -> nat -> bool) (l : list A) : bool :=
  match l with
  | [] => true
  | x :: l' => f x idx && everyFrom (S idx) f l'
  end.

Fixpoint someFrom {A} (idx : nat) (f : A -> nat -> bool) (l : list A) : bool :=
  match l with
  | [] => false
  | x :: l' => f x idx || someFrom (S idx) f l'
  end.

Definition every {A} := @everyFrom A 0%nat.
Definition some {A} := @someFrom A 0%nat.

(** [Array.prototype.splice(idx, 1)]. *)
Definition splice1 {A} (idx : nat) (l : list A) : list A :=
  take idx l ++ drop (S idx) l.

End Js.

(** ** Data model *)

(** The fields of [DimItem] (app/inventory/item-types) that this file reads.
    [energy] is [dimItem.energy?.energyCapacity]; [vendor] tells whether the
    optional vendor record is present. *)
Module DimItem.
Record t := mk {
  id : string;
  hash : Z;
  energy : option Z;
  vendor : bool;
  power : Z;
  equipped : bool
}.

Definition to_tuple (d : t) :=
  (id d, hash d, energy d, vendor d, power d, equipped d).
Definition of_tuple (p : string * Z * option Z * bool * Z * bool) : t :=
  let '(i, h, e, v, pw, eq) := p in mk i h e v pw eq.

#[global] Instance eq_dec : EqDecision t.
Proof. solve_decision. Defined.

#[global] Instance countable : Countable t.
Proof.
  apply (inj_countable' to_tuple of_tuple). by intros [].
Defined.
End DimItem.

(** [ProcessItem] (process-worker/types). [stats] is the object indexed by
    stat hash, whose index signature gives a number for every hash;
    [compatibleModSeasons] is optional. *)
Module ProcessItem.
Record t := mk {
  id : string;
  hash : Z;
  isExotic : bool;
  isArtifice : bool;
  remainingEnergyCapacity : Z;
  stats : Z -> Z;
  compatibleModSeasons : option (list string)
}.
End ProcessItem.

Record ResolvedStatConstraint := {
  statHash : Z;
  minTier : Z;
  maxTier : Z;
  ignored : bool
}.

Record DimPlug := { plugCategoryHash : Z }.
Record PluggableInventoryItemDefinition := { plug : DimPlug }.

Record MappedItem := {
  dimItem : DimItem.t;
  processItem : ProcessItem.t
}.

Module ItemGroup.
Record t := mk {
  canonicalProcessItem : ProcessItem.t;
  items : list DimItem.t
}.
End ItemGroup.

(** The record kept per item in [cache]. *)
Module Info.
Record t := mk {
  stats : list Z;
  energyCapacity : Z;
  relevantModSeasons : list string;
  isArtifice : bool
}.
End Info.

(** ** Comparators *)

(** Modelled from the spec: [compareBy] and [chainComparator] come from
    app/utils/comparators, which is not part of the sources at hand.
    [compareBy fn] orders ascending by the key [fn] returns (booleans are
    compared as 0 and 1), and [chainComparator] applies its comparators
    lexicographically: the first non-zero result decides. *)
Definition compareBy {T} (fn : T -> Z) (a b : T) : Z :=
  if fn a <? fn b then -1 else if fn a >? fn b then 1 else 0.

Fixpoint chainComparator {T} (compareFns : list (T -> T -> Z)) (a b : T) : Z :=
  match compareFns with
  | [] => 0
  | compare :: rest =>
      let retval := compare a b in
      if retval =? 0 then chainComparator rest a b else retval
  end.

(** The optional [getUserItemTag] callback; [TagValue] is a string literal
    type. *)
Definition TagLookup := option (DimItem.t -> option string).

Definition isNotFavorite (getTag : TagLookup) (d : DimItem.t) : bool :=
  match getTag with
  | None => true
  | Some f =>
      match f d with
      | Some tag => negb (String.eqb tag "favorite")
      | None => true
      end
  end.

Definition groupComparator (getTag : TagLookup) : MappedItem -> MappedItem -> Z :=
  chainComparator
    [ compareBy (fun m => - (default 0 (DimItem.energy (dimItem m))));
      compareBy (fun m => Z.b2z (DimItem.vendor (dimItem m)));
      compareBy (fun m => Z.b2z (isNotFavorite getTag (dimItem m)));
      compareBy (fun m => - DimItem.power (dimItem m));
      compareBy (fun m => if DimItem.equipped (dimItem m) then 0 else 1) ].

(** ** [mapItemsToGroups] *)

(** [existing[idx]] may be [undefined] when [idx] is out of range; then
    [v >= undefined] is false and [v !== undefined] is true. *)
Definition geAt (existing : list Z) (statValue : Z) (idx : nat) : bool :=
  match existing !! idx with
  | Some e => statValue >=? e
  | None => false
  end.

Definition neAt (existing : list Z) (statValue : Z) (idx : nat) : bool :=
  match existing !! idx with
  | Some e => negb (statValue =? e)
  | None => true
  end.

(** Checks if test is a superset of existing. *)
Definition isSuperset (test existing : list string) : bool :=
  forallb (fun v => Js.has test v) existing.

Definition firstPassGroupingFn (p : ProcessItem.t) : string :=
  if ProcessItem.isExotic p
  then Js.numToString (ProcessItem.hash p) +:+ "-"
  else "legendary-".

Section MapItemsToGroups.

(** [mapDimItemToProcessItem] (./mappers) and
    [getModTypeTagByPlugCategoryHash] (app/utils/item-utils) are defined
    outside this file; they are parameters here, as is the type of the
    armor energy rules that is only passed through. *)
Variable ArmorEnergyRules : Type.
Variable mapDimItemToProcessItem :
  DimItem.t -> ArmorEnergyRules -> list PluggableInventoryItemDefinition ->
  ProcessItem.t.
Variable getModTypeTagByPlugCategoryHash : Z -> option string.

Definition requiredModTagsOf
    (activityMods : list PluggableInventoryItemDefinition) : list string :=
  fold_left
    (fun requiredModTags mod_ =>
       match getModTypeTagByPlugCategoryHash (plugCategoryHash (plug mod_)) with
       | Some modTag =>
           if String.eqb modTag "" then requiredModTags
           else Js.add requiredModTags modTag
       | None => requiredModTags
       end)
    activityMods [].

Definition mapItem (armorEnergyRules : ArmorEnergyRules)
    (modsForSlot : list PluggableInventoryItemDefinition)
    (d : DimItem.t) : MappedItem :=
  {| dimItem := d;
     processItem := mapDimItemToProcessItem d armorEnergyRules modsForSlot |}.

Definition mapItems (armorEnergyRules : ArmorEnergyRules)
    (modsForSlot : list PluggableInventoryItemDefinition)
    (items : list DimItem.t) : list MappedItem :=
  map (mapItem armorEnergyRules modsForSlot) items.

(** The body of the loop that fills [cache]. *)
Definition cacheEntry (resolvedStatConstraints : list ResolvedStatConstraint)
    (requiredModTags : list string) (item : MappedItem) : Info.t :=
  let statValues :=
    map (fun c => ProcessItem.stats (processItem item) (statHash c))
        resolvedStatConstraints in
  let energyCapacity := ProcessItem.remainingEnergyCapacity (processItem item) in
  let relevantModSeasons :=
    match ProcessItem.compatibleModSeasons (processItem item) with
    | Some seasons => List.filter (fun season => Js.has requiredModTags season) seasons
    | None => []
    end in
  let relevantModSeasons := Js.sort Js.defaultCompare relevantModSeasons in
  {| Info.stats := statValues;
     Info.energyCapacity := energyCapacity;
     Info.relevantModSeasons := Js.newSet relevantModSeasons;
     Info.isArtifice := ProcessItem.isArtifice (processItem item) |}.

Definition buildCache (resolvedStatConstraints : list ResolvedStatConstraint)
    (requiredModTags : list string) (mappedItems : list MappedItem)
  : gmap DimItem.t Info.t :=
  fold_left
    (fun cache item =>
       <[dimItem item := cacheEntry resolvedStatConstraints requiredModTags item]> cache)
    mappedItems ∅.

(** [cache.get(item)!]. Every lookup the source performs is for an item
    that the loop above has inserted (see [cacheGet_mapped]); the fallback
    record only makes the function total. *)
Definition cacheGet (cache : gmap DimItem.t Info.t) (item : DimItem.t) : Info.t :=
  default (Info.mk [] 0 [] false) (cache !! item).

Definition finalGroupingFn (cache : gmap DimItem.t Info.t) (item : DimItem.t)
  : string :=
  let info := cacheGet cache item in
  Js.numsToString (Info.stats info) +:+ "-" +:+
  Js.numToString (Info.energyCapacity info) +:+ "-" +:+
  Js.strsToString (Info.relevantModSeasons info).

Definition isStrictlyBetter (cache : gmap DimItem.t Info.t)
    (testItem existingItem : MappedItem) : bool :=
  let testInfo := cacheGet cache (dimItem testItem) in
  let existingInfo := cacheGet cache (dimItem existingItem) in
  let betterOrEqual :=
    Js.every (geAt (Info.stats existingInfo)) (Info.stats testInfo) &&
    (Info.energyCapacity testInfo >=? Info.energyCapacity existingInfo) &&
    (ProcessItem.isArtifice (processItem testItem) || negb (Info.isArtifice existingInfo)) &&
    isSuperset (Info.relevantModSeasons testInfo) (Info.relevantModSeasons existingInfo) in
  if negb betterOrEqual then false
  else
    let isDifferent :=
      Js.some (neAt (Info.stats existingInfo)) (Info.stats testInfo) ||
      negb (Info.energyCapacity testInfo =? Info.energyCapacity existingInfo) ||
      negb (Bool.eqb (Info.isArtifice testInfo) (Info.isArtifice existingInfo)) ||
      negb (Nat.eqb (length (Info.relevantModSeasons testInfo))
                    (length (Info.relevantModSeasons existingInfo))) in
    isDifferent.

(** The inner [for (let idx = keepSet.length - 1; idx >= 0; idx--)] loop;
    [n] is [idx + 1]. Returns [dominated] and the updated [keepSet]. *)
Fixpoint pruneScan (better : MappedItem -> MappedItem -> bool) (n : nat)
    (keepSet : list MappedItem) (item : MappedItem) : bool * list MappedItem :=
  match n with
  | O => (false, keepSet)
  | S idx =>
      match keepSet !! idx with
      | Some kept =>
          if better kept item then (true, keepSet)
          else if better item kept
               then pruneScan better idx (Js.splice1 idx keepSet) item
               else pruneScan better idx keepSet item
      | None => pruneScan better idx keepSet item
      end
  end.

(** One iteration of [for (const item of group)]. *)
Definition pruneStep (better : MappedItem -> MappedItem -> bool)
    (keepSet : list MappedItem) (item : MappedItem) : list MappedItem :=
  let '(dominated, keepSet') := pruneScan better (length keepSet) keepSet item in
  if dominated then keepSet' else keepSet' ++ [item].

Definition prune (better : MappedItem -> MappedItem -> bool)
    (group : list MappedItem) : list MappedItem :=
  fold_left (pruneStep better) group [].

(** The groups built from one kept set: [Map.groupBy], the sort of each
    group and the choice of [group[0]] as representative. *)
Definition sortedGroups (getUserItemTag : TagLookup)
    (cache : gmap DimItem.t Info.t) (keepSet : list MappedItem)
  : list (list MappedItem) :=
  map (fun kg => Js.sort (groupComparator getUserItemTag) (snd kg))
      (Js.groupBy (fun m => finalGroupingFn cache (dimItem m)) keepSet).

Definition toItemGroup (group : list MappedItem) : list ItemGroup.t :=
  match group with
  | first :: _ =>
      [ {| ItemGroup.canonicalProcessItem := processItem first;
           ItemGroup.items := map dimItem group |} ]
  | [] => []
  end.

Definition groupsOfKeepSet (getUserItemTag : TagLookup)
    (cache : gmap DimItem.t Info.t) (keepSet : list MappedItem)
  : list ItemGroup.t :=
  flat_map toItemGroup (sortedGroups getUserItemTag cache keepSet).

Definition energyGroups (mappedItems : list MappedItem)
  : list (string * list MappedItem) :=
  Js.groupBy (fun m => firstPassGroupingFn (processItem m)) mappedItems.

Definition mapItemsToGroups
    (items : list DimItem.t)
    (resolvedStatConstraints : list ResolvedStatConstraint)
    (armorEnergyRules : ArmorEnergyRules)
    (activityMods modsForSlot : list PluggableInventoryItemDefinition)
    (getUserItemTag : TagLookup) : list ItemGroup.t :=
  let requiredModTags := requiredModTagsOf activityMods in
  let mappedItems := mapItems armorEnergyRules modsForSlot items in
  let cache := buildCache resolvedStatConstraints requiredModTags mappedItems in
  flat_map
    (fun kg =>
       let keepSet := prune (isStrictlyBetter cache) (snd kg) in
       groupsOfKeepSet getUserItemTag cache keepSet)
    (energyGroups mappedItems).

End MapItemsToGroups.

(** ** The item loop of [runProcess] and hydration *)

(** Of a set found by the worker only the per-slot item ids are read here,
    and of its result only the sets. *)
Record ProcessArmorSet := { armor : list string }.
Record ProcessResult := { sets : list ProcessArmorSet }.

Record ModMap := {
  bucketSpecificMods : gmap Z (list PluggableInventoryItemDefinition);
  activityMods : list PluggableInventoryItemDefinition;
  generalMods : list PluggableInventoryItemDefinition
}.

(** The five armor bucket hashes of [BucketHashes] (generated enums). *)
Record ArmorBuckets := {
  Helmet : Z;
  Gauntlets : Z;
  ChestArmor : Z;
  LegArmor : Z;
  ClassArmor : Z
}.

Section RunProcess.

Variable ArmorEnergyRules : Type.
Variable mapDimItemToProcessItem :
  DimItem.t -> ArmorEnergyRules -> list PluggableInventoryItemDefinition ->
  ProcessItem.t.
Variable getModTypeTagByPlugCategoryHash : Z -> option string.
Variable BucketHashes : ArmorBuckets.

Definition emptyProcessItems : gmap Z (list ProcessItem.t) :=
  <[ClassArmor BucketHashes := []]>
    (<[LegArmor BucketHashes := []]>
       (<[ChestArmor BucketHashes := []]>
          (<[Gauntlets BucketHashes := []]>
             (<[Helmet BucketHashes := []]> ∅)))).

(** [for (const group of groupedItems)]. *)
Definition pushGroup (bucketHash : Z)
    (st : gmap Z (list ProcessItem.t) * gmap string ItemGroup.t) (group : ItemGroup.t)
  : gmap Z (list ProcessItem.t) * gmap string ItemGroup.t :=
  (alter (fun l => l ++ [ItemGroup.canonicalProcessItem group]) bucketHash (fst st),
   <[ProcessItem.id (ItemGroup.canonicalProcessItem group) := group]> (snd st)).

(** One iteration of [for (const [bucketHashStr, items] of
    Object.entries(filteredItems))]; the entry's key is taken as the
    number [parseInt] gives back. *)
Definition processBucket
    (resolvedStatConstraints : list ResolvedStatConstraint)
    (armorEnergyRules : ArmorEnergyRules) (lockedModMap : ModMap)
    (getUserItemTag : TagLookup)
    (st : gmap Z (list ProcessItem.t) * gmap string ItemGroup.t)
    (entry : Z * list DimItem.t)
  : gmap Z (list ProcessItem.t) * gmap string ItemGroup.t :=
  let bucketHash := fst entry in
  let groupedItems :=
    mapItemsToGroups ArmorEnergyRules mapDimItemToProcessItem
      getModTypeTagByPlugCategoryHash
      (snd entry) resolvedStatConstraints armorEnergyRules
      (activityMods lockedModMap)
      (default [] (bucketSpecificMods lockedModMap !! bucketHash))
      getUserItemTag in
  fold_left (pushGroup bucketHash) groupedItems
    (<[bucketHash := []]> (fst st), snd st).

(** [processItems] and [itemsById] as they stand when the worker is
    called. *)
Definition prepareItems
    (filteredItems : list (Z * list DimItem.t))
    (resolvedStatConstraints : list ResolvedStatConstraint)
    (armorEnergyRules : ArmorEnergyRules) (lockedModMap : ModMap)
    (getUserItemTag : TagLookup)
  : gmap Z (list ProcessItem.t) * gmap string ItemGroup.t :=
  fold_left
    (processBucket resolvedStatConstraints armorEnergyRules lockedModMap getUserItemTag)
    filteredItems (emptyProcessItems, ∅).

End RunProcess.

(** Modelled from the spec: [hydrateArmorSet] lives in ./mappers, which is
    not part of the sources at hand. It expands each per-slot canonical id
    of a set to the group the index holds for it; an id that the index does
    not know is a precondition violation and makes the whole call fail. *)
Definition hydrateArmorSet (set : ProcessArmorSet)
    (itemsById : gmap string ItemGroup.t) : option (list ItemGroup.t) :=
  mapM (fun itemId => itemsById !! itemId) (armor set).

(** ** Lifecycle of the worker and of [resultPromise] *)

Module Dispatcher.

Inductive Promise (V : Type) :=
| Pending
| Fulfilled (value : V)
| Rejected (reason : string).
Arguments Pending {V}.
Arguments Fulfilled {V} value.
Arguments Rejected {V} reason.

Definition settled {V} (p : Promise V) : bool :=
  match p with Pending => false | _ => true end.

(** What [runProcess] closes over once it has returned: [cleanupRef]
    (still holding [cleanupWorker] or already [undefined]), how many
    times the worker has been terminated, whether the promise returned by
    [worker.process] is still pending, and the state of [resultPromise].
    The executor of [resultPromise] has run by then: the proxy call has
    handed back its promise and the [.then] and [.finally] callbacks are
    attached. Of the value the promise resolves with only the hydrated
    sets are kept; the elapsed time is left out. *)
Record State := {
  cleanupRef : bool;
  terminations : nat;
  callPending : bool;
  resultPromise : Promise (list (list ItemGroup.t))
}.

Definition init : State :=
  {| cleanupRef := true; terminations := 0%nat;
     callPending := true; resultPromise := Pending |}.

(** [cleanup]: [cleanupRef?.(); cleanupRef = undefined]. *)
Definition cleanup (s : State) : State :=
  if cleanupRef s
  then {| cleanupRef := false; terminations := S (terminations s);
          callPending := callPending s; resultPromise := resultPromise s |}
  else s.

(** [resolve(value)]: only the first settlement of a promise counts. *)
Definition resolve (value : list (list ItemGroup.t)) (s : State) : State :=
  match resultPromise s with
  | Pending =>
      {| cleanupRef := cleanupRef s; terminations := terminations s;
         callPending := callPending s; resultPromise := Fulfilled value |}
  | _ => s
  end.

Definition settleCall (s : State) : State :=
  {| cleanupRef := cleanupRef s; terminations := terminations s;
     callPending := false; resultPromise := resultPromise s |}.

(** What can happen after [runProcess] has returned: the worker answers
    the one call with a result, the call fails with an error, or the
    caller invokes [cleanup]. *)
Inductive Event :=
| WorkerResult (result : ProcessResult)
| WorkerError (reason : string)
| CallerCleanup.

(** A terminated worker sends nothing, and the call settles once. *)
Definition workerCanAnswer (s : State) : bool :=
  callPending s && Nat.eqb (terminations s) 0.

(** The [.then] callback followed by the [.finally] callback. When
    hydration throws, [resolve] is not reached. *)
Definition onFulfilled (itemsById : gmap string ItemGroup.t)
    (result : ProcessResult) (s : State) : State :=
  let s := settleCall s in
  let s :=
    match mapM (fun set => hydrateArmorSet set itemsById) (sets result) with
    | Some hydratedSets => resolve hydratedSets s
    | None => s
    end in
  cleanup s.

(** A rejected call skips the [.then] callback; [.finally] still runs. *)
Definition onRejected (s : State) : State :=
  cleanup (settleCall s).

Definition step (itemsById : gmap string ItemGroup.t) (s : State) (e : Event)
  : State :=
  match e with
  | WorkerResult result =>
      if workerCanAnswer s then onFulfilled itemsById result s else s
  | WorkerError _ =>
      if workerCanAnswer s then onRejected s else s
  | CallerCleanup => cleanup s
  end.

Definition run (itemsById : gmap string ItemGroup.t) (events : list Event) : State :=
  fold_left (step itemsById) events init.

End Dispatcher.

(** ** Auxiliary notions used to state and prove the properties *)

(** Decimal digits, and strings all of whose characters satisfy a test. *)
Definition isDigit (c : ascii) : bool :=
  match NilEmpty.uint_of_string (String c EmptyString) with
  | Some _ => true
  | None => false
  end.

Fixpoint allChars (P : ascii -> bool) (s : string) : bool :=
  match s with
  | EmptyString => true
  | String c s' => P c && allChars P s'
  end.

(** The digits of [|z|]. *)
Definition absDigits (z : Z) : string :=
  match Z.to_int z with
  | Decimal.Pos d | Decimal.Neg d => NilZero.string_of_uint d
  end.

(** A mod tag can be joined with commas and read back when it is not empty
    and contains no comma. *)
Definition notComma (c : ascii) : bool := negb (Ascii.eqb c ",").

Definition tagOk (t : string) : Prop := t <> "" /\ allChars notComma t = true.

(** A three-way comparison that behaves like one: swapping the arguments
    negates the result, non-positive results compose, and arguments that
    compare equal compare alike with everything else. *)
Class ThreeWay {T} (cmp : T -> T -> Z) : Prop := {
  cmp_opp : forall x y, cmp y x = - cmp x y;
  cmp_trans : forall x y z, cmp x y <= 0 -> cmp y z <= 0 -> cmp x z <= 0;
  cmp_eq_l : forall x y z, cmp x y = 0 -> cmp x z = cmp y z
}.

(** No kept item is better than another one; every item seen so far is
    kept or worse than a kept one. *)
Definition antichain (better : MappedItem -> MappedItem -> bool)
    (keepSet : list MappedItem) : Prop :=
  forall x y, x ∈ keepSet -> y ∈ keepSet -> better x y = false.

Definition covers (better : MappedItem -> MappedItem -> bool)
    (keepSet seen : list MappedItem) : Prop :=
  forall s, s ∈ seen -> s ∈ keepSet \/ exists k, k ∈ keepSet /\ better k s = true.

(** ** Dominance as the specification words it *)

(** The relevant mod tags of an item are those of its compatible mod tags
    that a locked activity mod requires. *)
Definition relevantTag (requiredModTags : list string) (p : ProcessItem.t)
    (t : string) : Prop :=
  t ∈ default [] (ProcessItem.compatibleModSeasons p) /\ t ∈ requiredModTags.

(** Conditions 1 to 4: at least as good on every axis. *)
Definition atLeastAsGood (resolvedStatConstraints : list ResolvedStatConstraint)
    (requiredModTags : list string) (a b : ProcessItem.t) : Prop :=
  (forall c, c ∈ resolvedStatConstraints ->
     ProcessItem.stats a (statHash c) >= ProcessItem.stats b (statHash c)) /\
  ProcessItem.remainingEnergyCapacity a >= ProcessItem.remainingEnergyCapacity b /\
  (ProcessItem.isArtifice b = true -> ProcessItem.isArtifice a = true) /\
  (forall t, relevantTag requiredModTags b t -> relevantTag requiredModTags a t).

(** Condition 5: one of the four comparisons is strict. *)
Definition strictSomewhere (resolvedStatConstraints : list ResolvedStatConstraint)
    (requiredModTags : list string) (a b : ProcessItem.t) : Prop :=
  (exists c, c ∈ resolvedStatConstraints /\
     ProcessItem.stats a (statHash c) > ProcessItem.stats b (statHash c)) \/
  ProcessItem.remainingEnergyCapacity a > ProcessItem.remainingEnergyCapacity b \/
  (ProcessItem.isArtifice a = true /\ ProcessItem.isArtifice b = false) \/
  (exists t, relevantTag requiredModTags a t /\ ~ relevantTag requiredModTags b t).

Definition dominates (resolvedStatConstraints : list ResolvedStatConstraint)
    (requiredModTags : list string) (a b : ProcessItem.t) : Prop :=
  atLeastAsGood resolvedStatConstraints requiredModTags a b /\
  strictSomewhere resolvedStatConstraints requiredModTags a b.

(** ** A small inventory used to exercise the statements *)

Module Sample.

(** Two stat constraints, one locked raid mod, and a tag table with two
    raid tags. *)
Definition constraints : list ResolvedStatConstraint :=
  [ {| statHash := 1; minTier := 0; maxTier := 10; ignored := false |};
    {| statHash := 2; minTier := 0; maxTier := 10; ignored := false |} ].

Definition tagTable (h : Z) : option string :=
  if h =? 1 then Some "deepstonecrypt"
  else if h =? 2 then Some "vaultofglass"
  else None.

Definition raidMod : PluggableInventoryItemDefinition :=
  {| plug := {| plugCategoryHash := 1 |} |}.

Definition item (id : string) (hash : Z) (vendor equipped : bool) : DimItem.t :=
  DimItem.mk id hash (Some 10) vendor 1800 equipped.

Definition owned : DimItem.t := item "owned" 100 false true.
Definition vendor : DimItem.t := item "vendor" 100 true false.
Definition worse : DimItem.t := item "worse" 101 false false.
Definition exotic : DimItem.t := item "exotic" 999 false false.
Definition artifice : DimItem.t := item "artifice" 102 false true.

Definition process (d : DimItem.t) (isExotic isArtifice : bool) (s1 s2 : Z)
  : ProcessItem.t :=
  ProcessItem.mk (DimItem.id d) (DimItem.hash d) isExotic isArtifice 10
    (fun h => if h =? 1 then s1 else s2) (Some ["deepstonecrypt"]).

(** A normaliser for the sample items: [worse] has one stat point less,
    [exotic] is exotic, [artifice] has the artifice slot; everything else
    is a plain legendary with stats 10 and 8. *)
Definition toProcessItem (d : DimItem.t) (_ : unit)
    (_ : list PluggableInventoryItemDefinition) : ProcessItem.t :=
  if String.eqb (DimItem.id d) "worse" then process d false false 9 8
  else if String.eqb (DimItem.id d) "exotic" then process d true false 10 8
  else if String.eqb (DimItem.id d) "artifice" then process d false true 10 8
  else process d false false 10 8.

Definition helmets : list DimItem.t := [vendor; worse; owned; exotic].

Definition groups (l : list DimItem.t) : list ItemGroup.t :=
  mapItemsToGroups unit toProcessItem tagTable l constraints tt [raidMod] [] None.

Definition mapped (l : list DimItem.t) : list MappedItem :=
  mapItems unit toProcessItem tt [] l.

Definition cache (l : list DimItem.t) : gmap DimItem.t Info.t :=
  buildCache constraints (requiredModTagsOf tagTable [raidMod]) (mapped l).

Definition required : list string := requiredModTagsOf tagTable [raidMod].

Definition m (d : DimItem.t) : MappedItem := mapItem unit toProcessItem tt [] d.

(** The first-pass bucket of the legendary helmets, in input order. *)
Definition legendaryBucket : list MappedItem := [m vendor; m worse; m owned].

Definition buckets : ArmorBuckets :=
  {| Helmet := 3448274439; Gauntlets := 3551918588; ChestArmor := 14239492;
     LegArmor := 20886954; ClassArmor := 1585787867 |}.

Definition lockedMods : ModMap :=
  {| bucketSpecificMods := ∅; activityMods := [raidMod]; generalMods := [] |}.

Definition filteredItems : list (Z * list DimItem.t) :=
  [ (3448274439, helmets) ].

End Sample.

(** ** The tie-break order as the specification words it *)

Definition isFavorite (getTag : TagLookup) (d : DimItem.t) : bool :=
  negb (isNotFavorite getTag d).

(** [a] may stand in front of [b]: higher energy capacity first, then
    owned before vendor-sourced, then favorited, then higher power, then
    equipped; each criterion only counts when the earlier ones tie. *)
Definition tieBreakLe (getTag : TagLookup) (a b : DimItem.t) : Prop :=
  let ea := default 0 (DimItem.energy a) in
  let eb := default 0 (DimItem.energy b) in
  ea > eb \/
  (ea = eb /\
   ((DimItem.vendor a = false /\ DimItem.vendor b = true) \/
    (DimItem.vendor a = DimItem.vendor b /\
     ((isFavorite getTag a = true /\ isFavorite getTag b = false) \/
      (isFavorite getTag a = isFavorite getTag b /\
       (DimItem.power a > DimItem.power b \/
        (DimItem.power a = DimItem.power b /\
         ((DimItem.equipped a = true /\ DimItem.equipped b = false) \/
          DimItem.equipped a = DimItem.equipped b)))))))).

(** The process items that [runProcess] computes from its input: one per
    item of every bucket, with the mods of that bucket. *)
Definition candidateProcessItems (ArmorEnergyRules : Type)
    (mapDimItemToProcessItem :
       DimItem.t -> ArmorEnergyRules -> list PluggableInventoryItemDefinition ->
       ProcessItem.t)
    (armorEnergyRules : ArmorEnergyRules) (lockedModMap : ModMap)
    (filteredItems : list (Z * list DimItem.t)) : list ProcessItem.t :=
  flat_map
    (fun entry =>
       map (fun d =>
              mapDimItemToProcessItem d armorEnergyRules
                (default [] (bucketSpecificMods lockedModMap !! fst entry)))
           (snd entry))
    filteredItems.

(** The result of [groupBy]: keys are pairwise distinct, no group is empty,
    and each member carries the key of its group. *)
Definition wellGrouped {A} (key : A -> string) (gs : list (string * list A)) : Prop :=
  NoDup (map fst gs) /\
  Forall (fun kg => snd kg <> [] /\ Forall (fun y => key y = fst kg) (snd kg)) gs.

(** Every indexed group sits under the id of its representative, which is
    a candidate; every process item sent is a candidate whose id is
    indexed. *)
Definition indexed (candidates : list ProcessItem.t)
    (st : gmap Z (list ProcessItem.t) * gmap string ItemGroup.t) : Prop :=
  (forall i g, snd st !! i = Some g ->
     ProcessItem.id (ItemGroup.canonicalProcessItem g) = i /\
     ItemGroup.canonicalProcessItem g ∈ candidates) /\
  (forall b l p, fst st !! b = Some l -> p ∈ l ->
     p ∈ candidates /\ is_Some (snd st !! ProcessItem.id p)).

(** What holds of the dispatcher state whatever has happened: [cleanupRef]
    is set exactly as long as the worker has not been terminated, which
    happens at most once, and [resultPromise] is pending or fulfilled. *)
Definition wellFormed (s : Dispatcher.State) : Prop :=
  (Dispatcher.cleanupRef s = true /\ Dispatcher.terminations s = 0%nat \/
   Dispatcher.cleanupRef s = false /\ Dispatcher.terminations s = 1%nat) /\
  (forall reason, Dispatcher.resultPromise s <> Dispatcher.Rejected reason).

(** Membership of an explicit element in a list that evaluates. *)
Ltac in_computed :=
  apply list_elem_of_In; vm_compute;
  repeat (first [left; reflexivity | right]).

(** * Properties *)

(** ** Rendering of numbers and of keys *)

Section Rendering.

Lemma span_unique (P : ascii -> bool) (u u' : string) c c' r r' :
  allChars P u = true -> allChars P u' = true ->
  P c = false -> P c' = false ->
  u +:+ String c r = u' +:+ String c' r' ->
  u = u' /\ c = c' /\ r = r'.
Proof.
  revert u'. induction u as [|a u IH]; intros [|a' u'] Hu Hu' Hc Hc' E;
    simpl in *.
  - by inversion E.
  - inversion E; subst. apply andb_prop in Hu' as [Ha _]. congruence.
  - inversion E; subst. apply andb_prop in Hu as [Ha _]. congruence.
  - inversion E; subst.
    apply andb_prop in Hu as [_ Hu]. apply andb_prop in Hu' as [_ Hu'].
    destruct (IH u' Hu Hu' Hc Hc' H1) as (-> & -> & ->). done.
Qed.

Lemma digits_NilEmpty d : allChars isDigit (NilEmpty.string_of_uint d) = true.
Proof. induction d; simpl; rewrite ?IHd; done. Qed.

Lemma digits_NilZero d : allChars isDigit (NilZero.string_of_uint d) = true.
Proof. destruct d; try apply (digits_NilEmpty (_ _)); done. Qed.

Lemma NilZero_nonempty d : NilZero.string_of_uint d <> "".
Proof. by destruct d. Qed.

Lemma numToString_sign z :
  Js.numToString z = if z <? 0 then String "-" (absDigits z) else absDigits z.
Proof. by destruct z. Qed.

Lemma absDigits_digits z : allChars isDigit (absDigits z) = true.
Proof. unfold absDigits. destruct (Z.to_int z); apply digits_NilZero. Qed.

Lemma absDigits_head z :
  exists c s, absDigits z = String c s /\ isDigit c = true.
Proof.
  pose proof (absDigits_digits z) as H.
  destruct (absDigits z) as [|c s] eqn:E.
  - unfold absDigits in E. destruct (Z.to_int z); by apply NilZero_nonempty in E.
  - exists c, s. simpl in H. apply andb_prop in H as [H _]. done.
Qed.

Lemma numToString_inj a b : Js.numToString a = Js.numToString b -> a = b.
Proof.
  unfold Js.numToString. intros E.
  apply DecimalZ.to_int_inj.
  assert (Hok : forall z, Z.to_int z <> Decimal.Pos Decimal.Nil /\
                          Z.to_int z <> Decimal.Neg Decimal.Nil).
  { intros [|p|p]; simpl; split; try discriminate;
      intros [= H]; by apply Unsigned.to_uint_nonnil in H. }
  destruct (Hok a) as [Ha1 Ha2], (Hok b) as [Hb1 Hb2].
  pose proof (NilZero.isi _ Ha1 Ha2) as Ia.
  pose proof (NilZero.isi _ Hb1 Hb2) as Ib.
  rewrite E in Ia. congruence.
Qed.

(** A rendered number followed by a character that is not a digit can be
    read back in one way only. *)
Lemma numToString_sep a b c r r' :
  isDigit c = false ->
  Js.numToString a +:+ String c r = Js.numToString b +:+ String c r' ->
  a = b /\ r = r'.
Proof.
  intros Hc E.
  assert (Hstr : Js.numToString a = Js.numToString b /\ r = r').
  { rewrite !numToString_sign in E |- *.
    destruct (absDigits_head a) as (ca & sa & Ea & Hca).
    destruct (absDigits_head b) as (cb & sb & Eb & Hcb).
    pose proof (absDigits_digits a) as Da. pose proof (absDigits_digits b) as Db.
    destruct (a <? 0), (b <? 0); simpl in E.
    - inversion E as [E'].
      destruct (span_unique isDigit _ _ _ _ _ _ Da Db Hc Hc E') as (-> & _ & ->).
      done.
    - rewrite Eb in E. simpl in E. inversion E; subst. discriminate.
    - rewrite Ea in E. simpl in E. inversion E; subst. discriminate.
    - destruct (span_unique isDigit _ _ _ _ _ _ Da Db Hc Hc E) as (-> & _ & ->).
      done. }
  destruct Hstr as [Hs ->]. split; [by apply numToString_inj | done].
Qed.

Lemma append_assoc (a b c : string) : (a +:+ b) +:+ c = a +:+ (b +:+ c).
Proof.
  induction a as [|x a IH]; [done|].
  change (String x ((a +:+ b) +:+ c) = String x (a +:+ (b +:+ c))).
  by rewrite IH.
Qed.

Lemma join_cons2 sep (x y : string) l :
  Js.join sep (x :: y :: l) = x +:+ sep +:+ Js.join sep (y :: l).
Proof. done. Qed.

Lemma numsToString_sep v v' r r' :
  length v = length v' ->
  Js.numsToString v +:+ String "-" r = Js.numsToString v' +:+ String "-" r' ->
  v = v' /\ r = r'.
Proof.
  unfold Js.numsToString. revert v'.
  induction v as [|a v IH]; intros [|b v'] Hlen E; try discriminate.
  - cbn in E. by inversion E.
  - destruct v as [|a2 v], v' as [|b2 v']; try discriminate.
    + cbn [map Js.join String.concat] in E.
      apply numToString_sep in E as [-> ->]; done.
    + rewrite !map_cons, !join_cons2, !append_assoc in E.
      change ("," +:+ ?x) with (String "," x) in E.
      apply numToString_sep in E as [-> E]; [|done].
      rewrite <- !map_cons in E.
      apply IH in E as [-> ->]; [done|]. simpl in *. lia.
Qed.

Lemma allChars_app P (a b : string) :
  allChars P (a +:+ b) = allChars P a && allChars P b.
Proof.
  induction a as [|x a IH]; [done|].
  change (P x && allChars P (a +:+ b) = P x && allChars P a && allChars P b).
  rewrite IH. by destruct (P x).
Qed.

Lemma strsToString_inj l l' :
  Forall tagOk l -> Forall tagOk l' ->
  Js.strsToString l = Js.strsToString l' -> l = l'.
Proof.
  unfold Js.strsToString. revert l'.
  induction l as [|a l IH]; intros [|b l'] Hl Hl' E.
  - done.
  - exfalso. inversion Hl' as [|? ? [Hb _] _]; subst.
    destruct l'; cbn in E; [congruence|]. by destruct b.
  - exfalso. inversion Hl as [|? ? [Ha _] _]; subst.
    destruct l; cbn in E; [congruence|]. by destruct a.
  - inversion Hl as [|? ? [_ Ha] Hl2]; inversion Hl' as [|? ? [_ Hb] Hl2']; subst.
    destruct l as [|a2 l], l' as [|b2 l'].
    + cbn in E. by subst.
    + exfalso. rewrite join_cons2 in E. change (Js.join "," [a]) with a in E.
      subst a. rewrite allChars_app in Ha.
      apply andb_prop in Ha as [_ Ha]. discriminate.
    + exfalso. rewrite join_cons2 in E. change (Js.join "," [b]) with b in E.
      subst b. rewrite allChars_app in Hb.
      apply andb_prop in Hb as [_ Hb]. discriminate.
    + rewrite !join_cons2 in E.
      change ("," +:+ ?x) with (String "," x) in E.
      apply span_unique with (P := notComma) in E as (-> & _ & E); try done.
      f_equal. by apply IH.
Qed.

End Rendering.

(** ** Comparators and the stable sort *)

Section Comparators.
Context {T : Type}.

#[global] Instance compareBy_ThreeWay (fn : T -> Z) : ThreeWay (compareBy fn).
Proof.
  split; unfold compareBy; intros;
    repeat match goal with
           | |- context [?a <? ?b] => destruct (Z.ltb_spec a b)
           | |- context [?a >? ?b] => destruct (Z.gtb_spec a b)
           | H : context [?a <? ?b] |- _ => destruct (Z.ltb_spec a b)
           | H : context [?a >? ?b] |- _ => destruct (Z.gtb_spec a b)
           end; lia.
Qed.

#[global] Instance chain_nil_ThreeWay : ThreeWay (@chainComparator T []).
Proof. split; simpl; intros; lia. Qed.

Lemma cmp_eq_r (cmp : T -> T -> Z) `{!ThreeWay cmp} x y z :
  cmp y z = 0 -> cmp x y = cmp x z.
Proof.
  intros E. pose proof (cmp_eq_l y z x E) as H.
  rewrite (cmp_opp x y), (cmp_opp x z) in H. lia.
Qed.

#[global] Instance chain_cons_ThreeWay (c : T -> T -> Z) rest :
  ThreeWay c -> ThreeWay (chainComparator rest) ->
  ThreeWay (chainComparator (c :: rest)).
Proof.
  intros Hc Hr. split; simpl.
  - intros x y. rewrite (cmp_opp (cmp := c) x y).
    destruct (Z.eqb_spec (c x y) 0) as [E|E];
      destruct (Z.eqb_spec (- c x y) 0); try lia.
    apply (cmp_opp (cmp := chainComparator rest)).
  - intros x y z.
    destruct (Z.eqb_spec (c x y) 0) as [Exy|Exy];
      destruct (Z.eqb_spec (c y z) 0) as [Eyz|Eyz];
      destruct (Z.eqb_spec (c x z) 0) as [Exz|Exz]; intros Hxy Hyz.
    + by apply (cmp_trans (cmp := chainComparator rest) x y z).
    + rewrite (cmp_eq_l (cmp := c) x y z Exy) in Exz. lia.
    + rewrite (cmp_eq_l (cmp := c) x y z Exy) in Exz. lia.
    + rewrite (cmp_eq_l (cmp := c) x y z Exy). lia.
    + rewrite (cmp_eq_r c x y z Eyz) in Exy. lia.
    + rewrite <- (cmp_eq_r c x y z Eyz). lia.
    + exfalso. pose proof (cmp_eq_l (cmp := c) x z y Exz) as H.
      rewrite (cmp_opp (cmp := c) y z) in H. lia.
    + by apply (cmp_trans (cmp := c) x y z).
  - intros x y z.
    destruct (Z.eqb_spec (c x y) 0) as [Exy|Exy]; [|lia].
    intros Er. rewrite (cmp_eq_l (cmp := c) x y z Exy).
    by rewrite (cmp_eq_l (cmp := chainComparator rest) x y z Er).
Qed.

Lemma sortInsert_perm (cmp : T -> T -> Z) x l :
  Js.sortInsert cmp x l ≡ₚ x :: l.
Proof.
  induction l as [|y l IH]; simpl; [done|].
  destruct (cmp x y <=? 0); [done|]. rewrite IH. apply Permutation_swap.
Qed.

Lemma sort_perm (cmp : T -> T -> Z) l : Js.sort cmp l ≡ₚ l.
Proof.
  induction l as [|x l IH]; simpl; [done|].
  by rewrite sortInsert_perm, IH.
Qed.

Lemma sortInsert_sorted (cmp : T -> T -> Z) `{!ThreeWay cmp} x l :
  StronglySorted (fun a b => cmp a b <= 0) l ->
  StronglySorted (fun a b => cmp a b <= 0) (Js.sortInsert cmp x l).
Proof.
  induction l as [|y l IH]; simpl; intros Hs.
  - repeat constructor.
  - inversion Hs as [|? ? Hl Hy]; subst.
    destruct (Z.leb_spec (cmp x y) 0) as [Hxy|Hxy].
    + constructor; [done|]. constructor; [done|].
      eapply Forall_impl; [exact Hy|]. simpl. intros z Hz.
      by apply (cmp_trans x y z).
    + constructor; [by apply IH|].
      rewrite sortInsert_perm. constructor; [|done].
      rewrite (cmp_opp x y). lia.
Qed.

Lemma sort_sorted (cmp : T -> T -> Z) `{!ThreeWay cmp} l :
  StronglySorted (fun a b => cmp a b <= 0) (Js.sort cmp l).
Proof.
  induction l as [|x l IH]; simpl; [constructor|].
  by apply sortInsert_sorted.
Qed.

End Comparators.

Lemma groupComparator_ThreeWay getTag : ThreeWay (groupComparator getTag).
Proof. unfold groupComparator. apply _. Qed.

(** ** [groupBy] *)

Section GroupBy.
Context {A : Type} (key : A -> string).

Local Abbreviation grouped := (wellGrouped key).

Lemma groupAdd_keys k x (gs : list (string * list A)) :
  forall k', k' ∈ map fst (Js.groupAdd k x gs) <-> k' = k \/ k' ∈ map fst gs.
Proof.
  induction gs as [|[k0 g] gs IH]; intros k'; simpl.
  - rewrite list_elem_of_singleton, elem_of_nil. tauto.
  - destruct (String.eqb_spec k k0) as [->|Hne]; simpl.
    + rewrite !elem_of_cons. tauto.
    + rewrite !elem_of_cons, IH. tauto.
Qed.

Lemma groupAdd_grouped x gs : grouped gs -> grouped (Js.groupAdd (key x) x gs).
Proof.
  unfold grouped. induction gs as [|[k0 g] gs IH]; simpl; intros [Hnd Hall].
  - split; [apply NoDup_singleton|]. repeat constructor; simpl; by auto.
  - inversion Hnd as [|? ? Hnin Hnd']; subst.
    inversion Hall as [|? ? [Hne Hg] Hall']; subst. simpl in *.
    destruct (String.eqb_spec (key x) k0) as [E|E]; simpl.
    + split; [done|]. constructor; [|done]. simpl. split.
      * by destruct g.
      * apply Forall_app. split; [done|]. by constructor.
    + destruct (IH (conj Hnd' Hall')) as [IH1 IH2].
      split; [|by constructor].
      constructor; [|done]. rewrite groupAdd_keys. intros [Hk|Hk]; auto.
Qed.

Lemma groupAdd_perm k x (gs : list (string * list A)) :
  concat (map snd (Js.groupAdd k x gs)) ≡ₚ x :: concat (map snd gs).
Proof.
  induction gs as [|[k0 g] gs IH]; simpl; [done|].
  destruct (String.eqb k k0); simpl.
  - rewrite <- app_assoc. simpl. by rewrite <- Permutation_middle.
  - rewrite IH. by rewrite <- Permutation_middle.
Qed.

Lemma groupAdd_length k x (gs : list (string * list A)) :
  (length (Js.groupAdd k x gs) <= S (length gs))%nat.
Proof.
  induction gs as [|[k0 g] gs IH]; simpl; [lia|].
  destruct (String.eqb k k0); simpl; lia.
Qed.

Lemma groupBy_fold l : forall acc,
  grouped acc ->
  let gs := fold_left (fun gs x => Js.groupAdd (key x) x gs) l acc in
  grouped gs /\
  concat (map snd gs) ≡ₚ concat (map snd acc) ++ l /\
  (length gs <= length acc + length l)%nat.
Proof.
  induction l as [|x l IH]; intros acc Hacc; simpl.
  - rewrite app_nil_r. split; [done|]. split; [done|lia].
  - destruct (IH (Js.groupAdd (key x) x acc) (groupAdd_grouped x acc Hacc))
      as (H1 & H2 & H3).
    split; [done|]. split.
    + rewrite H2, groupAdd_perm. by rewrite <- Permutation_middle.
    + pose proof (groupAdd_length (key x) x acc). lia.
Qed.

Lemma groupBy_grouped l : grouped (Js.groupBy key l).
Proof.
  apply (groupBy_fold l []). split; [constructor|constructor].
Qed.

Lemma groupBy_perm l : concat (map snd (Js.groupBy key l)) ≡ₚ l.
Proof.
  destruct (groupBy_fold l []) as (_ & H & _); [split; constructor|]. done.
Qed.

Lemma groupBy_length l : (length (Js.groupBy key l) <= length l)%nat.
Proof.
  destruct (groupBy_fold l []) as (_ & _ & H); [split; constructor|]. done.
Qed.

(** Members of one group share the key. *)
Lemma groupBy_same_key l k g x :
  (k, g) ∈ Js.groupBy key l -> x ∈ g -> key x = k.
Proof.
  intros Hg Hx. destruct (groupBy_grouped l) as [_ Hall].
  rewrite Forall_forall in Hall. destruct (Hall _ Hg) as [_ Hk].
  rewrite Forall_forall in Hk. by apply Hk.
Qed.

Lemma groupBy_member l k g x : (k, g) ∈ Js.groupBy key l -> x ∈ g -> x ∈ l.
Proof.
  intros Hg Hx. rewrite <- (groupBy_perm l).
  apply list_elem_of_In, in_concat. exists g. split; [|by apply list_elem_of_In].
  apply in_map_iff. exists (k, g). split; [done|]. by apply list_elem_of_In.
Qed.

End GroupBy.

(** ** The pruning loop *)

Section Prune.
Variable better : MappedItem -> MappedItem -> bool.

Lemma splice1_middle (pre : list MappedItem) x suf :
  Js.splice1 (length pre) (pre ++ x :: suf) = pre ++ suf.
Proof.
  unfold Js.splice1.
  rewrite take_app_length.
  replace (S (length pre)) with (length (pre ++ [x])) by (rewrite length_app; simpl; lia).
  replace (pre ++ x :: suf) with ((pre ++ [x]) ++ suf) by (by rewrite <- app_assoc).
  by rewrite drop_app_length.
Qed.

(** What one run of the inner loop over the first [length pre] entries
    does: it keeps a sublist [pre'] of them; every entry it drops is
    worse than [item]; when it reports [dominated] a kept entry is better
    than [item]; otherwise no kept entry compares with [item]. *)
Lemma pruneScan_spec item : forall pre suf,
  exists dominated pre',
    pruneScan better (length pre) (pre ++ suf) item = (dominated, pre' ++ suf) /\
    sublist pre' pre /\
    (forall k, k ∈ pre -> k ∈ pre' \/ better item k = true) /\
    (dominated = true -> exists k, k ∈ pre' /\ better k item = true) /\
    (dominated = false ->
     forall k, k ∈ pre' -> better k item = false /\ better item k = false).
Proof.
  induction pre as [|x pre IH] using rev_ind; intros suf.
  - exists false, []. simpl.
    refine (conj _ (conj _ (conj _ (conj _ _)))); try done.
    + intros k Hk. by apply elem_of_nil in Hk.
    + intros _ k Hk. by apply elem_of_nil in Hk.
  - rewrite length_app. simpl. rewrite Nat.add_1_r. simpl.
    rewrite <- app_assoc. simpl.
    rewrite list_lookup_middle by done.
    destruct (better x item) eqn:Hxi.
    + exists true, (pre ++ [x]). rewrite <- app_assoc. simpl.
      refine (conj _ (conj _ (conj _ (conj _ _)))); try done.
      * intros k Hk. by left.
      * intros _. exists x. split; [|done]. apply elem_of_app. right. by left.
    + destruct (better item x) eqn:Hix.
      * rewrite splice1_middle.
        destruct (IH suf) as (d & pre' & E & Hsub & Hcov & Ht & Hf).
        exists d, pre'.
        refine (conj _ (conj _ (conj _ (conj _ _)))); try done.
        -- by apply sublist_inserts_r.
        -- intros k [Hk|Hk]%elem_of_app; [by apply Hcov|].
           apply list_elem_of_singleton in Hk as ->. by right.
      * destruct (IH (x :: suf)) as (d & pre' & E & Hsub & Hcov & Ht & Hf).
        exists d, (pre' ++ [x]). rewrite <- app_assoc. simpl.
        refine (conj _ (conj _ (conj _ (conj _ _)))); try done.
        -- by apply sublist_app.
        -- intros k [Hk|Hk]%elem_of_app.
           ++ destruct (Hcov k Hk) as [?|?]; [left|by right].
              apply elem_of_app. by left.
           ++ left. apply elem_of_app. by right.
        -- intros Hd. destruct (Ht Hd) as (k & Hk & Hb). exists k.
           split; [|done]. apply elem_of_app. by left.
        -- intros Hd k [Hk|Hk]%elem_of_app; [by apply Hf|].
           by apply list_elem_of_singleton in Hk as ->.
Qed.

(** The same for one whole iteration of the outer loop. *)
Lemma pruneStep_spec keepSet item :
  exists dominated pre',
    pruneStep better keepSet item =
      (if dominated : bool then pre' else pre' ++ [item]) /\
    sublist pre' keepSet /\
    (forall k, k ∈ keepSet -> k ∈ pre' \/ better item k = true) /\
    (dominated = true -> exists k, k ∈ pre' /\ better k item = true) /\
    (dominated = false ->
     forall k, k ∈ pre' -> better k item = false /\ better item k = false).
Proof.
  destruct (pruneScan_spec item keepSet []) as (d & pre' & E & H).
  exists d, pre'. split; [|done].
  unfold pruneStep. rewrite app_nil_r in E. rewrite E. by rewrite app_nil_r.
Qed.

End Prune.

Section PruneOrder.
Variable better : MappedItem -> MappedItem -> bool.
Variable ok : MappedItem -> Prop.
Hypothesis better_irrefl : forall x, ok x -> better x x = false.
Hypothesis better_trans : forall x y z, ok x -> ok y -> ok z ->
  better x y = true -> better y z = true -> better x z = true.

Lemma pruneStep_subset keepSet item k :
  k ∈ pruneStep better keepSet item -> k ∈ keepSet \/ k = item.
Proof.
  destruct (pruneStep_spec better keepSet item) as (d & pre' & E & Hsub & _).
  rewrite E. destruct d.
  - intros Hk. left. by eapply elem_of_sublist.
  - intros [Hk|Hk]%elem_of_app.
    + left. by eapply elem_of_sublist.
    + right. by apply list_elem_of_singleton in Hk.
Qed.

Lemma pruneStep_antichain keepSet item :
  ok item -> antichain better keepSet ->
  antichain better (pruneStep better keepSet item).
Proof.
  intros Hok Ha.
  destruct (pruneStep_spec better keepSet item)
    as (d & pre' & E & Hsub & _ & _ & Hf).
  rewrite E. destruct d; intros x y Hx Hy.
  - apply Ha; by eapply elem_of_sublist.
  - apply elem_of_app in Hx as [Hx|Hx%list_elem_of_singleton];
      apply elem_of_app in Hy as [Hy|Hy%list_elem_of_singleton]; subst.
    + apply Ha; by eapply elem_of_sublist.
    + by apply (Hf eq_refl).
    + by apply (Hf eq_refl).
    + by apply better_irrefl.
Qed.

Lemma pruneStep_covers keepSet seen item :
  ok item -> (forall s, s ∈ seen -> ok s) ->
  (forall k, k ∈ keepSet -> k ∈ seen) ->
  covers better keepSet seen ->
  covers better (pruneStep better keepSet item) (seen ++ [item]).
Proof.
  intros Hok Hseen Hsub Hc.
  destruct (pruneStep_spec better keepSet item)
    as (d & pre' & E & Hsub' & Hcov & Ht & _).
  rewrite E. destruct d.
  - destruct (Ht eq_refl) as (k0 & Hk0 & Hb0).
    assert (Hok0 : ok k0) by (apply Hseen, Hsub; by eapply elem_of_sublist).
    assert (Hdrop : forall k, k ∈ keepSet ->
              k ∈ pre' \/ better k0 k = true).
    { intros k Hk. destruct (Hcov k Hk) as [?|Hb]; [by left|right].
      apply (better_trans k0 item k); auto. }
    intros s [Hs|Hs]%elem_of_app.
    + destruct (Hc s Hs) as [Hk|(k & Hk & Hb)].
      * destruct (Hdrop s Hk) as [?|?]; [by left|right; eauto].
      * right. destruct (Hdrop k Hk) as [?|Hb']; [eauto|].
        exists k0. split; [done|]. apply (better_trans k0 k s); auto.
    + apply list_elem_of_singleton in Hs as ->. right. eauto.
  - assert (Hitem : item ∈ pre' ++ [item]).
    { apply elem_of_app. right. by left. }
    intros s [Hs|Hs]%elem_of_app.
    + destruct (Hc s Hs) as [Hk|(k & Hk & Hb)].
      * destruct (Hcov s Hk) as [?|?].
        -- left. apply elem_of_app. by left.
        -- right. eauto.
      * right. destruct (Hcov k Hk) as [?|Hb'].
        -- exists k. split; [|done]. apply elem_of_app. by left.
        -- exists item. split; [done|]. apply (better_trans item k s); auto.
    + apply list_elem_of_singleton in Hs as ->. by left.
Qed.

(** The invariant of the outer loop. *)
Lemma prune_invariant group :
  (forall s, s ∈ group -> ok s) ->
  (forall k, k ∈ prune better group -> k ∈ group) /\
  antichain better (prune better group) /\
  covers better (prune better group) group.
Proof.
  unfold prune.
  induction group as [|item group IH] using rev_ind; intros Hok.
  - simpl. split; [done|]. split.
    + intros x y Hx. by apply elem_of_nil in Hx.
    + intros s Hs. by apply elem_of_nil in Hs.
  - rewrite fold_left_app. simpl.
    assert (Hok' : forall s, s ∈ group -> ok s).
    { intros s Hs. apply Hok, elem_of_app. by left. }
    assert (Hitem : ok item).
    { apply Hok, elem_of_app. right. by left. }
    destruct (IH Hok') as (Hsub & Ha & Hc).
    split; [|split].
    + intros k [Hk| ->]%pruneStep_subset; apply elem_of_app.
      * left. by apply Hsub.
      * right. by left.
    + by apply pruneStep_antichain.
    + by apply pruneStep_covers.
Qed.

(** The kept set consists of the items of the group that no item of the
    group is better than. *)
Lemma prune_maximal group x :
  (forall s, s ∈ group -> ok s) ->
  x ∈ prune better group <->
  x ∈ group /\ forall y, y ∈ group -> better y x = false.
Proof.
  intros Hok. destruct (prune_invariant group Hok) as (Hsub & Ha & Hc).
  split.
  - intros Hx. split; [by apply Hsub|]. intros y Hy.
    destruct (better y x) eqn:Hyx; [exfalso|done].
    destruct (Hc y Hy) as [Hk|(k & Hk & Hb)].
    + by rewrite (Ha y x Hk Hx) in Hyx.
    + assert (better k x = true) as Hkx.
      { apply (better_trans k y x); auto. }
      by rewrite (Ha k x Hk Hx) in Hkx.
  - intros [Hx Hmax]. destruct (Hc x Hx) as [Hk|(k & Hk & Hb)]; [done|].
    rewrite (Hmax k (Hsub k Hk)) in Hb. discriminate.
Qed.

End PruneOrder.

(** ** The cache and [isStrictlyBetter] *)

Section Sets.

Lemma has_true s x : Js.has s x = true <-> x ∈ s.
Proof. unfold Js.has. apply bool_decide_eq_true. Qed.

Lemma add_spec s x :
  NoDup s -> NoDup (Js.add s x) /\ forall t, t ∈ Js.add s x <-> t ∈ s \/ t = x.
Proof.
  intros Hnd. unfold Js.add. destruct (Js.has s x) eqn:E.
  - apply has_true in E. split; [done|]. intros t. split; [by left|].
    intros [?| ->]; done.
  - assert (x ∉ s) as Hx.
    { intros Hx. apply has_true in Hx. congruence. }
    split.
    + apply NoDup_app. split; [done|]. split; [|apply NoDup_singleton].
      intros y Hy ->%list_elem_of_singleton. done.
    + intros t. rewrite elem_of_app, list_elem_of_singleton. done.
Qed.

Lemma newSet_fold l : forall acc,
  NoDup acc ->
  NoDup (fold_left Js.add l acc) /\
  forall t, t ∈ fold_left Js.add l acc <-> t ∈ acc \/ t ∈ l.
Proof.
  induction l as [|x l IH]; intros acc Hacc; simpl.
  - split; [done|]. intros t. rewrite elem_of_nil. tauto.
  - destruct (add_spec acc x Hacc) as [Hnd Hin].
    destruct (IH _ Hnd) as [IH1 IH2]. split; [done|].
    intros t. rewrite IH2, Hin, elem_of_cons. tauto.
Qed.

Lemma newSet_NoDup l : NoDup (Js.newSet l).
Proof. apply (newSet_fold l []). constructor. Qed.

Lemma newSet_elem l t : t ∈ Js.newSet l <-> t ∈ l.
Proof.
  destruct (newSet_fold l []) as [_ H]; [constructor|].
  unfold Js.newSet. rewrite H, elem_of_nil. tauto.
Qed.

Lemma isSuperset_true test existing :
  isSuperset test existing = true <-> forall v, v ∈ existing -> v ∈ test.
Proof.
  unfold isSuperset. rewrite forallb_forall. split.
  - intros H v Hv. apply has_true, H. by apply list_elem_of_In.
  - intros H v Hv. apply has_true, H. by apply list_elem_of_In.
Qed.

(** For duplicate-free lists, a superset that differs in size has an
    element the subset lacks, and conversely. *)
Lemma superset_size (ta tb : list string) :
  NoDup ta -> NoDup tb -> (forall t, t ∈ tb -> t ∈ ta) ->
  length ta <> length tb <-> exists t, t ∈ ta /\ t ∉ tb.
Proof.
  intros Ha Hb Hsub.
  assert (Hba : tb ⊆+ ta) by (by apply NoDup_submseteq).
  split.
  - intros Hlen.
    destruct (decide (Forall (fun t => t ∈ tb) ta)) as [Hall|Hall].
    + exfalso. apply Hlen.
      assert (ta ⊆+ tb) as Hab.
      { apply NoDup_submseteq; [done|]. by apply Forall_forall. }
      apply submseteq_length in Hba. apply submseteq_length in Hab. lia.
    + apply not_Forall_Exists in Hall; [|apply _].
      apply Exists_exists in Hall as (t & Ht & Hn). by exists t.
  - intros (t & Ht & Hn) Hlen. apply Hn.
    assert (tb ≡ₚ ta) as Hp.
    { apply submseteq_length_Permutation; [done|lia]. }
    by rewrite Hp.
Qed.

End Sets.

Section Indexed.
Context {C : Type} (f g : C -> Z).

Lemma everyFrom_geAt cs : forall pre,
  Js.everyFrom (length pre) (geAt (pre ++ map g cs)) (map f cs) = true <->
  forall c, c ∈ cs -> f c >= g c.
Proof.
  induction cs as [|c cs IH]; intros pre; simpl.
  - split; [|done]. intros _ c Hc. by apply elem_of_nil in Hc.
  - unfold geAt at 1. rewrite list_lookup_middle by done.
    replace (pre ++ g c :: map g cs) with ((pre ++ [g c]) ++ map g cs)
      by (by rewrite <- app_assoc).
    replace (S (length pre)) with (length (pre ++ [g c]))
      by (rewrite length_app; simpl; lia).
    rewrite andb_true_iff, IH, Z.geb_le. split.
    + intros [H1 H2] c' [->|Hc']%elem_of_cons; [lia|by apply H2].
    + intros H. split.
      * specialize (H c (list_elem_of_here _ _)). lia.
      * intros c' Hc'. apply H. by right.
Qed.

Lemma someFrom_neAt cs : forall pre,
  Js.someFrom (length pre) (neAt (pre ++ map g cs)) (map f cs) = true <->
  exists c, c ∈ cs /\ f c <> g c.
Proof.
  induction cs as [|c cs IH]; intros pre; simpl.
  - split; [done|]. intros (c & Hc & _). by apply elem_of_nil in Hc.
  - unfold neAt at 1. rewrite list_lookup_middle by done.
    replace (pre ++ g c :: map g cs) with ((pre ++ [g c]) ++ map g cs)
      by (by rewrite <- app_assoc).
    replace (S (length pre)) with (length (pre ++ [g c]))
      by (rewrite length_app; simpl; lia).
    rewrite orb_true_iff, IH, negb_true_iff, Z.eqb_neq. split.
    + intros [H|(c' & Hc' & H)].
      * exists c. split; [by left|done].
      * exists c'. split; [by right|done].
    + intros (c' & [->|Hc']%elem_of_cons & H); [by left|].
      right. by exists c'.
Qed.

End Indexed.

Section Dominance.
Variables (cs : list ResolvedStatConstraint) (req : list string).

Lemma dominates_irrefl a : ~ dominates cs req a a.
Proof.
  intros [_ [(c & _ & H)|[H|[[H1 H2]|(t & H1 & H2)]]]];
    try lia; try congruence; done.
Qed.

Lemma dominates_trans a b c :
  dominates cs req a b -> dominates cs req b c -> dominates cs req a c.
Proof.
  intros [(S1 & E1 & A1 & T1) St1] [(S2 & E2 & A2 & T2) _].
  split.
  - refine (conj _ (conj _ (conj _ _))).
    + intros k Hk. specialize (S1 k Hk). specialize (S2 k Hk). lia.
    + lia.
    + auto.
    + auto.
  - destruct St1 as [(k & Hk & H)|[H|[[H1 H2]|(t & H1 & H2)]]].
    + left. exists k. split; [done|]. specialize (S2 k Hk). lia.
    + right; left. lia.
    + right; right; left. split; [done|].
      destruct (ProcessItem.isArtifice c) eqn:Ec; [|done].
      rewrite (A2 eq_refl) in H2. discriminate.
    + right; right; right. exists t. split; [done|]. intros Hc. auto.
Qed.

End Dominance.

Section Cache.
Context (ArmorEnergyRules : Type).
Context (mapDimItemToProcessItem :
  DimItem.t -> ArmorEnergyRules -> list PluggableInventoryItemDefinition ->
  ProcessItem.t).
Context (cs : list ResolvedStatConstraint) (req : list string).
Context (rules : ArmorEnergyRules) (mods : list PluggableInventoryItemDefinition).

Local Abbreviation mapped := (mapItems ArmorEnergyRules mapDimItemToProcessItem rules mods).

Lemma mapped_eq items m m' :
  m ∈ mapped items -> m' ∈ mapped items -> dimItem m = dimItem m' -> m = m'.
Proof.
  unfold mapItems, mapItem.
  intros (d & -> & _)%list_elem_of_fmap (d' & -> & _)%list_elem_of_fmap.
  simpl. by intros ->.
Qed.

Lemma buildCache_lookup (ms : list MappedItem) :
  (forall m m', m ∈ ms -> m' ∈ ms -> dimItem m = dimItem m' -> m = m') ->
  forall m, m ∈ ms -> buildCache cs req ms !! dimItem m = Some (cacheEntry cs req m).
Proof.
  unfold buildCache.
  induction ms as [|x ms IH] using rev_ind; intros Hdet m Hm.
  - by apply elem_of_nil in Hm.
  - rewrite fold_left_app. simpl.
    destruct (decide (dimItem x = dimItem m)) as [E|E].
    + rewrite E, lookup_insert_eq. f_equal. f_equal.
      apply Hdet; [|done|done]. apply elem_of_app. right. by left.
    + rewrite lookup_insert_ne by done.
      apply elem_of_app in Hm as [Hm|Hm%list_elem_of_singleton]; [|by subst].
      apply IH; [|done]. intros m1 m2 H1 H2. apply Hdet; apply elem_of_app; by left.
Qed.

(** The non-null assertion on [cache.get] is justified for every item of
    [mappedItems], and the record found is the one computed from that
    item. *)
Lemma cacheGet_mapped items m :
  m ∈ mapped items ->
  cacheGet (buildCache cs req (mapped items)) (dimItem m) = cacheEntry cs req m.
Proof.
  intros Hm. unfold cacheGet.
  rewrite (buildCache_lookup (mapped items)); [done| |done].
  intros m1 m2. apply mapped_eq.
Qed.

Lemma entry_tags m t :
  t ∈ Info.relevantModSeasons (cacheEntry cs req m) <->
  relevantTag req (processItem m) t.
Proof.
  unfold cacheEntry, relevantTag. simpl.
  rewrite newSet_elem, sort_perm.
  destruct (ProcessItem.compatibleModSeasons (processItem m)) as [seasons|]; simpl.
  - rewrite list_elem_of_In, filter_In, has_true, <- list_elem_of_In. done.
  - rewrite elem_of_nil. tauto.
Qed.

Lemma entry_tags_NoDup m : NoDup (Info.relevantModSeasons (cacheEntry cs req m)).
Proof. apply newSet_NoDup. Qed.

(** [isStrictlyBetter] decides the dominance relation on the items of
    [mappedItems]. *)
Lemma isStrictlyBetter_dominates items a b :
  a ∈ mapped items -> b ∈ mapped items ->
  isStrictlyBetter (buildCache cs req (mapped items)) a b = true <->
  dominates cs req (processItem a) (processItem b).
Proof.
  intros Ha Hb. unfold isStrictlyBetter.
  rewrite !(cacheGet_mapped items) by done.
  pose proof (entry_tags a) as Ta. pose proof (entry_tags b) as Tb.
  pose proof (superset_size _ _ (entry_tags_NoDup a) (entry_tags_NoDup b)) as Hsz.
  pose proof (isSuperset_true (Info.relevantModSeasons (cacheEntry cs req a))
                (Info.relevantModSeasons (cacheEntry cs req b))) as Hsup.
  destruct (cacheEntry cs req a) as [sa ea ta aa] eqn:Ea.
  destruct (cacheEntry cs req b) as [sb eb tb ab] eqn:Eb.
  unfold cacheEntry in Ea, Eb. injection Ea as <- <- _ <-. injection Eb as <- <- _ <-.
  simpl in *.
  pose proof (everyFrom_geAt
    (fun c => ProcessItem.stats (processItem a) (statHash c))
    (fun c => ProcessItem.stats (processItem b) (statHash c)) cs []) as Hev.
  pose proof (someFrom_neAt
    (fun c => ProcessItem.stats (processItem a) (statHash c))
    (fun c => ProcessItem.stats (processItem b) (statHash c)) cs []) as Hso.
  simpl in Hev, Hso. unfold Js.every, Js.some.
  unfold dominates, atLeastAsGood, strictSomewhere.
  set (E := Js.everyFrom _ _ _) in *. set (S := Js.someFrom _ _ _) in *.
  set (ra := ProcessItem.remainingEnergyCapacity (processItem a)) in *.
  set (rb := ProcessItem.remainingEnergyCapacity (processItem b)) in *.
  set (xa := ProcessItem.isArtifice (processItem a)) in *.
  set (xb := ProcessItem.isArtifice (processItem b)) in *.
  set (Sup := isSuperset ta tb) in *.
  split.
  - intros H.
    destruct E eqn:HE; [|done]. destruct (Z.geb_spec ra rb) as [Hr|]; [|done].
    destruct (xa || negb xb) eqn:Hx; [|done]. destruct Sup eqn:HS; [|done].
    simpl in H.
    assert (Hsub : forall t, relevantTag req (processItem b) t ->
                        relevantTag req (processItem a) t).
    { intros t Ht. apply Ta. apply (proj1 Hsup eq_refl). by apply Tb. }
    split.
    + refine (conj _ (conj _ (conj _ _))); try done.
      * by apply Hev.
      * lia.
      * intros Hxb. rewrite Hxb in Hx. by destruct xa.
    + apply orb_true_iff in H as [H|H]; [apply orb_true_iff in H as [H|H];
        [apply orb_true_iff in H as [H|H]|]|].
      * left. apply Hso in H as (c & Hc & Hne). exists c. split; [done|].
        pose proof (proj1 Hev eq_refl c Hc). lia.
      * right; left. apply negb_true_iff, Z.eqb_neq in H. lia.
      * right; right; left. destruct xa, xb; done.
      * right; right; right.
        apply negb_true_iff, Nat.eqb_neq in H.
        apply Hsz in H as (t & Ht & Hn).
        -- exists t. split; [by apply Ta|]. intros Hb'. by apply Hn, Tb.
        -- by apply Hsup.
  - intros [(Hs & Hr & Hx & Ht) Hstrict].
    assert (HE : E = true) by (by apply Hev).
    assert (Hin : forall v, v ∈ tb -> v ∈ ta).
    { intros v Hv. apply Ta, Ht, Tb, Hv. }
    assert (HS : Sup = true) by (by apply Hsup).
    rewrite HE, HS. destruct (Z.geb_spec ra rb) as [_|?]; [|lia].
    assert ((xa || negb xb) = true) as ->.
    { destruct xb; [by rewrite Hx|by destruct xa]. }
    simpl.
    destruct Hstrict as [(c & Hc & H)|[H|[[H1 H2]|(t & H1 & H2)]]].
    + assert (S = true) as ->; [|done]. apply Hso. exists c. split; [done|lia].
    + assert ((ra =? rb) = false) as ->; [apply Z.eqb_neq; lia|].
      simpl. by rewrite orb_true_r.
    + rewrite H1, H2. simpl. by rewrite orb_true_r.
    + assert (length ta <> length tb) as Hl.
      { apply Hsz; [done|]. exists t. split; [by apply Ta|].
        intros Hb'. by apply H2, Tb. }
      apply Nat.eqb_neq in Hl. rewrite Hl. simpl. by rewrite !orb_true_r.
Qed.

End Cache.

(** ** Structure of the result of [mapItemsToGroups] *)

Lemma firstPassGroupingFn_inj p q :
  firstPassGroupingFn p = firstPassGroupingFn q ->
  ProcessItem.isExotic p = ProcessItem.isExotic q /\
  (ProcessItem.isExotic p = true -> ProcessItem.hash p = ProcessItem.hash q).
Proof.
  unfold firstPassGroupingFn.
  assert (Hno : forall z, Js.numToString z +:+ "-" <> "legendary-").
  { intros z E. rewrite numToString_sign in E.
    destruct (absDigits_head z) as (c & s & Es & Hc).
    destruct (z <? 0); [by inversion E|].
    rewrite Es in E. inversion E; subst. discriminate. }
  destruct (ProcessItem.isExotic p), (ProcessItem.isExotic q); intros E.
  - split; [done|]. intros _. by apply numToString_sep in E as [? _].
  - by apply Hno in E.
  - symmetry in E. by apply Hno in E.
  - done.
Qed.

Section Groups.
Context (ArmorEnergyRules : Type).
Context (mapDimItemToProcessItem :
  DimItem.t -> ArmorEnergyRules -> list PluggableInventoryItemDefinition ->
  ProcessItem.t).
Context (getModTypeTagByPlugCategoryHash : Z -> option string).
Context (cs : list ResolvedStatConstraint) (rules : ArmorEnergyRules).
Context (activityMods modsForSlot : list PluggableInventoryItemDefinition).
Context (getUserItemTag : TagLookup).

Local Abbreviation req :=
  (requiredModTagsOf getModTypeTagByPlugCategoryHash activityMods).
Local Abbreviation mapper :=
  (mapItem ArmorEnergyRules mapDimItemToProcessItem rules modsForSlot).
Local Abbreviation mapped :=
  (mapItems ArmorEnergyRules mapDimItemToProcessItem rules modsForSlot).
Local Abbreviation cacheOf items := (buildCache cs req (mapped items)).
Local Abbreviation better items := (isStrictlyBetter (cacheOf items)).
Local Abbreviation finalKey items :=
  (fun m => finalGroupingFn (cacheOf items) (dimItem m)).

Lemma mapped_elem items m : m ∈ mapped items <-> exists d, m = mapper d /\ d ∈ items.
Proof. unfold mapItems. apply list_elem_of_fmap. Qed.

Lemma mapped_dimItem items m : m ∈ mapped items -> m = mapper (dimItem m).
Proof. intros (d & -> & _)%mapped_elem. done. Qed.

Lemma better_irrefl items x : x ∈ mapped items -> better items x x = false.
Proof.
  intros Hx. destruct (better items x x) eqn:E; [|done].
  apply isStrictlyBetter_dominates in E; [|done|done].
  by apply dominates_irrefl in E.
Qed.

Lemma better_trans items x y z :
  x ∈ mapped items -> y ∈ mapped items -> z ∈ mapped items ->
  better items x y = true -> better items y z = true -> better items x z = true.
Proof.
  intros Hx Hy Hz Hxy Hyz.
  apply isStrictlyBetter_dominates in Hxy; [|done|done].
  apply isStrictlyBetter_dominates in Hyz; [|done|done].
  apply isStrictlyBetter_dominates; [done|done|].
  by eapply dominates_trans.
Qed.

Lemma bucket_mapped items k bucket m :
  (k, bucket) ∈ energyGroups (mapped items) -> m ∈ bucket -> m ∈ mapped items.
Proof. unfold energyGroups. apply groupBy_member. Qed.

Lemma bucket_key items k bucket m :
  (k, bucket) ∈ energyGroups (mapped items) -> m ∈ bucket ->
  firstPassGroupingFn (processItem m) = k.
Proof.
  unfold energyGroups. intros Hb Hm.
  by apply (groupBy_same_key _ _ _ _ _ Hb Hm).
Qed.

Lemma kept_in_bucket items bucket m :
  (forall s, s ∈ bucket -> s ∈ mapped items) ->
  m ∈ prune (better items) bucket -> m ∈ bucket.
Proof.
  intros Hok Hm.
  eapply (prune_maximal (better items) (fun s => s ∈ mapped items)); eauto.
  - intros x. apply better_irrefl.
  - intros x y z. apply better_trans.
Qed.

(** Where a group of the result comes from: a first-pass bucket, one
    class of its kept set under the final key, sorted. *)
Lemma group_origin items g :
  g ∈ mapItemsToGroups ArmorEnergyRules mapDimItemToProcessItem
        getModTypeTagByPlugCategoryHash items cs rules activityMods
        modsForSlot getUserItemTag ->
  exists k bucket kf grp first rest,
    (k, bucket) ∈ energyGroups (mapped items) /\
    (kf, grp) ∈ Js.groupBy (finalKey items) (prune (better items) bucket) /\
    Js.sort (groupComparator getUserItemTag) grp = first :: rest /\
    g = {| ItemGroup.canonicalProcessItem := processItem first;
           ItemGroup.items := map dimItem (first :: rest) |}.
Proof.
  unfold mapItemsToGroups, groupsOfKeepSet, sortedGroups.
  intros Hg. apply list_elem_of_In, in_flat_map in Hg as ([k bucket] & Hb & Hg).
  apply in_flat_map in Hg as (sorted & Hs & Hg). simpl in *.
  apply in_map_iff in Hs as ([kf grp] & <- & Hgrp). simpl in *.
  destruct (Js.sort (groupComparator getUserItemTag) grp) as [|first rest] eqn:Es;
    [by destruct Hg|].
  destruct Hg as [<-|[]].
  exists k, bucket, kf, grp, first, rest.
  rewrite <- !list_elem_of_In in *. done.
Qed.

(** Every member of a group is the image of a kept item of the bucket. *)
Lemma member_origin items k bucket kf grp first rest d :
  (k, bucket) ∈ energyGroups (mapped items) ->
  (kf, grp) ∈ Js.groupBy (finalKey items) (prune (better items) bucket) ->
  Js.sort (groupComparator getUserItemTag) grp = first :: rest ->
  d ∈ map dimItem (first :: rest) ->
  mapper d ∈ grp /\ mapper d ∈ prune (better items) bucket /\
  mapper d ∈ bucket /\ mapper d ∈ mapped items /\
  finalGroupingFn (cacheOf items) d = kf.
Proof.
  intros Hb Hg Es Hd. rewrite <- Es in Hd.
  apply list_elem_of_fmap in Hd as (m & -> & Hm).
  rewrite sort_perm in Hm.
  assert (Hk : m ∈ prune (better items) bucket) by (by eapply groupBy_member).
  assert (Hbk : m ∈ bucket).
  { eapply kept_in_bucket; [|done]. intros s. by apply bucket_mapped with k. }
  assert (Hmp : m ∈ mapped items) by (by eapply bucket_mapped).
  rewrite <- (mapped_dimItem items m Hmp).
  repeat split; try done.
  by apply (groupBy_same_key _ _ _ _ _ Hg Hm).
Qed.

End Groups.

(** ** The final grouping key *)

Section FinalKey.
Context (ArmorEnergyRules : Type).
Context (mapDimItemToProcessItem :
  DimItem.t -> ArmorEnergyRules -> list PluggableInventoryItemDefinition ->
  ProcessItem.t).
Context (getModTypeTagByPlugCategoryHash : Z -> option string).
Context (cs : list ResolvedStatConstraint) (rules : ArmorEnergyRules).
Context (activityMods modsForSlot : list PluggableInventoryItemDefinition).

Local Abbreviation req :=
  (requiredModTagsOf getModTypeTagByPlugCategoryHash activityMods).
Local Abbreviation mapped :=
  (mapItems ArmorEnergyRules mapDimItemToProcessItem rules modsForSlot).
Local Abbreviation cacheOf items := (buildCache cs req (mapped items)).
Local Abbreviation better items := (isStrictlyBetter (cacheOf items)).

(** The tags that end up in [requiredModTags] are not empty (the source
    tests [if (modTag)]) and, when the tag table yields no tag with a
    comma, contain none. *)
Lemma required_tagOk :
  (forall h t, getModTypeTagByPlugCategoryHash h = Some t ->
               allChars notComma t = true) ->
  forall t, t ∈ req -> tagOk t.
Proof.
  intros Htable. unfold requiredModTagsOf.
  assert (Hfold : forall (l : list PluggableInventoryItemDefinition) acc,
    (forall t, t ∈ acc -> tagOk t) ->
    forall t,
      t ∈ fold_left
        (fun requiredModTags mod_ =>
           match getModTypeTagByPlugCategoryHash (plugCategoryHash (plug mod_)) with
           | Some modTag =>
               if String.eqb modTag "" then requiredModTags
               else Js.add requiredModTags modTag
           | None => requiredModTags
           end) l acc -> tagOk t).
  { induction l as [|x l IH]; intros acc Hacc; simpl; [done|].
    apply IH.
    destruct (getModTypeTagByPlugCategoryHash (plugCategoryHash (plug x)))
      as [modTag|] eqn:Et; [|done].
    destruct (String.eqb_spec modTag "") as [|Hne]; [done|].
    intros t. unfold Js.add. destruct (Js.has acc modTag); [by apply Hacc|].
    intros [Ht|Ht%list_elem_of_singleton]%elem_of_app; [by apply Hacc|].
    subst. split; [done|]. by eapply Htable. }
  apply Hfold. intros t Ht. by apply elem_of_nil in Ht.
Qed.

(** Two items of [mappedItems] with the same final key have the same
    stat vector, energy capacity and relevant mod tags in the cache. *)
Lemma finalKey_inj items m1 m2 :
  (forall t, t ∈ req -> tagOk t) ->
  m1 ∈ mapped items -> m2 ∈ mapped items ->
  finalGroupingFn (cacheOf items) (dimItem m1) =
    finalGroupingFn (cacheOf items) (dimItem m2) ->
  Info.stats (cacheEntry cs req m1) = Info.stats (cacheEntry cs req m2) /\
  Info.energyCapacity (cacheEntry cs req m1) =
    Info.energyCapacity (cacheEntry cs req m2) /\
  Info.relevantModSeasons (cacheEntry cs req m1) =
    Info.relevantModSeasons (cacheEntry cs req m2).
Proof.
  intros Hreq H1 H2. unfold finalGroupingFn.
  rewrite !(cacheGet_mapped _ _ _ _ _ _ items) by done.
  assert (Htags : forall m,
    Forall tagOk (Info.relevantModSeasons (cacheEntry cs req m))).
  { intros m. apply Forall_forall. intros t Ht.
    apply entry_tags in Ht as [_ Ht]. by apply Hreq. }
  pose proof (Htags m1) as T1. pose proof (Htags m2) as T2.
  assert (Hlen : length (Info.stats (cacheEntry cs req m1)) =
                 length (Info.stats (cacheEntry cs req m2))).
  { unfold cacheEntry. simpl. by rewrite !length_map. }
  destruct (cacheEntry cs req m1) as [s1 e1 t1 a1].
  destruct (cacheEntry cs req m2) as [s2 e2 t2 a2]. simpl in *.
  intros E. change ("-" +:+ ?x) with (String "-" x) in E.
  apply numsToString_sep in E as [-> E]; [|done].
  apply numToString_sep in E as [-> E]; [|done].
  apply strsToString_inj in E as ->; done.
Qed.

(** Items that agree on stats, energy and tags but not on the artifice
    flag are comparable: the artifice one is strictly better. *)
Lemma same_info_artifice items m1 m2 :
  m1 ∈ mapped items -> m2 ∈ mapped items ->
  Info.stats (cacheEntry cs req m1) = Info.stats (cacheEntry cs req m2) ->
  Info.energyCapacity (cacheEntry cs req m1) =
    Info.energyCapacity (cacheEntry cs req m2) ->
  Info.relevantModSeasons (cacheEntry cs req m1) =
    Info.relevantModSeasons (cacheEntry cs req m2) ->
  ProcessItem.isArtifice (processItem m1) = true ->
  ProcessItem.isArtifice (processItem m2) = false ->
  better items m1 m2 = true.
Proof.
  intros H1 H2 Hs He Ht A1 A2.
  apply isStrictlyBetter_dominates; [done|done|].
  split; [|right; right; left; done].
  refine (conj _ (conj _ (conj _ _))).
  - intros c Hc. unfold cacheEntry in Hs. simpl in Hs.
    apply list_elem_of_In in Hc.
    pose proof (proj1 map_ext_in_iff Hs c Hc) as E. simpl in E. lia.
  - unfold cacheEntry in He. simpl in He. lia.
  - done.
  - intros t Ht2. apply entry_tags with (cs := cs). rewrite Ht.
    by apply entry_tags.
Qed.

End FinalKey.

(** * Main results *)

Lemma sample_table_no_comma h t :
  Sample.tagTable h = Some t -> allChars notComma t = true.
Proof.
  unfold Sample.tagTable.
  destruct (h =? 1); [by intros [= <-]|].
  destruct (h =? 2); [by intros [= <-]|done].
Qed.

(** C1. Any two members of one group returned by [mapItemsToGroups] have
    the same cached stat vector (in the order of the stat constraints), the
    same remaining energy capacity, the same set of relevant mod tags and
    the same artifice flag, although the final grouping key does not
    mention the artifice flag. The tags handed out by the tag table are
    taken to contain no comma, the separator of the key. *)
Theorem C1_group_members_interchangeable
    (ArmorEnergyRules : Type)
    (mapDimItemToProcessItem :
       DimItem.t -> ArmorEnergyRules -> list PluggableInventoryItemDefinition ->
       ProcessItem.t)
    (getModTypeTagByPlugCategoryHash : Z -> option string)
    (items : list DimItem.t)
    (resolvedStatConstraints : list ResolvedStatConstraint)
    (armorEnergyRules : ArmorEnergyRules)
    (activityMods modsForSlot : list PluggableInventoryItemDefinition)
    (getUserItemTag : TagLookup) (g : ItemGroup.t) (d1 d2 : DimItem.t) :
  (forall h t, getModTypeTagByPlugCategoryHash h = Some t ->
               allChars notComma t = true) ->
  g ∈ mapItemsToGroups ArmorEnergyRules mapDimItemToProcessItem
        getModTypeTagByPlugCategoryHash items resolvedStatConstraints
        armorEnergyRules activityMods modsForSlot getUserItemTag ->
  d1 ∈ ItemGroup.items g -> d2 ∈ ItemGroup.items g ->
  let info d :=
    cacheEntry resolvedStatConstraints
      (requiredModTagsOf getModTypeTagByPlugCategoryHash activityMods)
      (mapItem ArmorEnergyRules mapDimItemToProcessItem armorEnergyRules modsForSlot d) in
  Info.stats (info d1) = Info.stats (info d2) /\
  Info.energyCapacity (info d1) = Info.energyCapacity (info d2) /\
  Info.relevantModSeasons (info d1) = Info.relevantModSeasons (info d2) /\
  Info.isArtifice (info d1) = Info.isArtifice (info d2).
Proof.
  intros Htable Hg H1 H2 info.
  apply group_origin in Hg
    as (k & bucket & kf & grp & first & rest & Hb & Hgrp & Es & ->).
  simpl in H1, H2.
  edestruct member_origin as (_ & K1 & _ & M1 & F1);
    [exact Hb | exact Hgrp | exact Es | exact H1 |].
  edestruct member_origin as (_ & K2 & _ & M2 & F2);
    [exact Hb | exact Hgrp | exact Es | exact H2 |].
  pose proof (required_tagOk getModTypeTagByPlugCategoryHash activityMods Htable)
    as Hreq.
  edestruct finalKey_inj as (Hs & He & Ht);
    [exact Hreq | exact M1 | exact M2 | simpl; by rewrite F1, F2 |].
  refine (conj Hs (conj He (conj Ht _))).
  assert (Hanti : antichain
            (isStrictlyBetter (buildCache resolvedStatConstraints
               (requiredModTagsOf getModTypeTagByPlugCategoryHash activityMods)
               (mapItems ArmorEnergyRules mapDimItemToProcessItem
                  armorEnergyRules modsForSlot items)))
            (prune (isStrictlyBetter (buildCache resolvedStatConstraints
               (requiredModTagsOf getModTypeTagByPlugCategoryHash activityMods)
               (mapItems ArmorEnergyRules mapDimItemToProcessItem
                  armorEnergyRules modsForSlot items))) bucket)).
  { eapply (prune_invariant _ (fun s => s ∈ mapItems ArmorEnergyRules
              mapDimItemToProcessItem armorEnergyRules modsForSlot items)).
    - intros x. apply better_irrefl.
    - intros x y z. apply better_trans.
    - intros s. by apply bucket_mapped with k. }
  unfold info, cacheEntry. simpl.
  destruct (ProcessItem.isArtifice (mapDimItemToProcessItem d1 armorEnergyRules modsForSlot)) eqn:A1;
    destruct (ProcessItem.isArtifice (mapDimItemToProcessItem d2 armorEnergyRules modsForSlot)) eqn:A2;
    try done.
  - assert (Hb12 := Hanti _ _ K1 K2).
    rewrite same_info_artifice in Hb12; done.
  - assert (Hb21 := Hanti _ _ K2 K1).
    rewrite same_info_artifice in Hb21; done.
Qed.

Lemma C1_witness :
  let g := {| ItemGroup.canonicalProcessItem := Sample.toProcessItem Sample.owned tt [];
              ItemGroup.items := [Sample.owned; Sample.vendor] |} in
  let info d :=
    cacheEntry Sample.constraints
      (requiredModTagsOf Sample.tagTable [Sample.raidMod])
      (mapItem unit Sample.toProcessItem tt [] d) in
  g ∈ Sample.groups Sample.helmets /\
  Info.stats (info Sample.owned) = Info.stats (info Sample.vendor) /\
  Info.energyCapacity (info Sample.owned) = Info.energyCapacity (info Sample.vendor) /\
  Info.relevantModSeasons (info Sample.owned) =
    Info.relevantModSeasons (info Sample.vendor) /\
  Info.isArtifice (info Sample.owned) = Info.isArtifice (info Sample.vendor).
Proof.
  intros g info.
  assert (Hg : g ∈ Sample.groups Sample.helmets) by in_computed.
  split; [exact Hg|].
  apply (C1_group_members_interchangeable unit Sample.toProcessItem
           Sample.tagTable Sample.helmets Sample.constraints tt
           [Sample.raidMod] [] None g Sample.owned Sample.vendor
           sample_table_no_comma Hg).
  - in_computed.
  - in_computed.
Defined.

Section Buckets.
Context (ArmorEnergyRules : Type).
Context (mapDimItemToProcessItem :
  DimItem.t -> ArmorEnergyRules -> list PluggableInventoryItemDefinition ->
  ProcessItem.t).
Context (getModTypeTagByPlugCategoryHash : Z -> option string).
Context (items : list DimItem.t).
Context (resolvedStatConstraints : list ResolvedStatConstraint).
Context (armorEnergyRules : ArmorEnergyRules).
Context (activityMods modsForSlot : list PluggableInventoryItemDefinition).

Local Abbreviation requiredModTags :=
  (requiredModTagsOf getModTypeTagByPlugCategoryHash activityMods).
Local Abbreviation mappedItems :=
  (mapItems ArmorEnergyRules mapDimItemToProcessItem armorEnergyRules modsForSlot items).
Local Abbreviation cache :=
  (buildCache resolvedStatConstraints requiredModTags mappedItems).

Lemma bucket_order k bucket :
  (k, bucket) ∈ energyGroups mappedItems ->
  (forall x, x ∈ mappedItems -> isStrictlyBetter cache x x = false) /\
  (forall x y z, x ∈ mappedItems -> y ∈ mappedItems -> z ∈ mappedItems ->
     isStrictlyBetter cache x y = true -> isStrictlyBetter cache y z = true ->
     isStrictlyBetter cache x z = true) /\
  (forall s, s ∈ bucket -> s ∈ mappedItems).
Proof.
  intros Hb. refine (conj _ (conj _ _)).
  - intros x. apply better_irrefl.
  - intros x y z. apply better_trans.
  - intros s. by apply bucket_mapped with k.
Qed.

(** C3. For two items of one first-pass bucket, [isStrictlyBetter] answers
    true exactly when the first dominates the second in the sense of the
    five conditions: at least as good on every constrained stat, on energy
    capacity, on the artifice flag and on the relevant mod tags, and
    strictly better on one of them. *)
Theorem C3_isStrictlyBetter_iff_dominates k bucket testItem existingItem :
  (k, bucket) ∈ energyGroups mappedItems ->
  testItem ∈ bucket -> existingItem ∈ bucket ->
  isStrictlyBetter cache testItem existingItem = true <->
  dominates resolvedStatConstraints requiredModTags
    (processItem testItem) (processItem existingItem).
Proof.
  intros Hb Ht He.
  apply isStrictlyBetter_dominates; by apply bucket_mapped with k bucket.
Qed.

(** C4. When the pruning loop has run over a bucket, no kept item is
    strictly better than another kept item, in either direction. *)
Theorem C4_kept_set_is_antichain k bucket x y :
  (k, bucket) ∈ energyGroups mappedItems ->
  x ∈ prune (isStrictlyBetter cache) bucket ->
  y ∈ prune (isStrictlyBetter cache) bucket ->
  isStrictlyBetter cache x y = false /\ isStrictlyBetter cache y x = false.
Proof.
  intros Hb Hx Hy. destruct (bucket_order k bucket Hb) as (Hirr & Htr & Hok).
  destruct (prune_invariant _ _ Hirr Htr bucket Hok) as (_ & Ha & _).
  split; by apply Ha.
Qed.

(** C5. If an item of a bucket dominates another item of the same bucket,
    the dominated item is not in the kept set, whatever happens to the
    dominating item later in the loop. *)
Theorem C5_dominated_item_is_pruned k bucket a b :
  (k, bucket) ∈ energyGroups mappedItems ->
  a ∈ bucket -> b ∈ bucket ->
  dominates resolvedStatConstraints requiredModTags (processItem a) (processItem b) ->
  b ∉ prune (isStrictlyBetter cache) bucket.
Proof.
  intros Hb Ha Hbb Hdom Hkept.
  destruct (bucket_order k bucket Hb) as (Hirr & Htr & Hok).
  apply (prune_maximal _ _ Hirr Htr bucket b Hok) in Hkept as [_ Hmax].
  specialize (Hmax a Ha).
  assert (isStrictlyBetter cache a b = true) as Hab.
  { apply isStrictlyBetter_dominates; [by apply Hok|by apply Hok|done]. }
  congruence.
Qed.

(** C6. Running the pruning loop over any reordering of a bucket keeps
    the same items. *)
Theorem C6_kept_set_independent_of_order k bucket bucket' :
  (k, bucket) ∈ energyGroups mappedItems ->
  bucket' ≡ₚ bucket ->
  forall x, x ∈ prune (isStrictlyBetter cache) bucket' <->
            x ∈ prune (isStrictlyBetter cache) bucket.
Proof.
  intros Hb Hp x. destruct (bucket_order k bucket Hb) as (Hirr & Htr & Hok).
  assert (Hok' : forall s, s ∈ bucket' -> s ∈ mappedItems).
  { intros s Hs. apply Hok. by rewrite <- Hp. }
  rewrite (prune_maximal _ _ Hirr Htr bucket x Hok).
  rewrite (prune_maximal _ _ Hirr Htr bucket' x Hok').
  split; intros [Hx Hmax]; (split; [by rewrite ?Hp in *|]);
    intros y Hy; apply Hmax; by rewrite ?Hp in *.
Qed.

End Buckets.

Lemma sample_bucket :
  ("legendary-", Sample.legendaryBucket) ∈ energyGroups (Sample.mapped Sample.helmets).
Proof. in_computed. Qed.

Lemma sample_owned_beats_worse :
  isStrictlyBetter (Sample.cache Sample.helmets)
    (Sample.m Sample.owned) (Sample.m Sample.worse) = true.
Proof. by vm_compute. Qed.

Lemma C3_witness :
  ("legendary-", Sample.legendaryBucket) ∈ energyGroups (Sample.mapped Sample.helmets) /\
  (isStrictlyBetter (Sample.cache Sample.helmets)
     (Sample.m Sample.owned) (Sample.m Sample.worse) = true <->
   dominates Sample.constraints Sample.required
     (processItem (Sample.m Sample.owned)) (processItem (Sample.m Sample.worse))).
Proof.
  split; [exact sample_bucket|].
  apply (C3_isStrictlyBetter_iff_dominates unit Sample.toProcessItem
           Sample.tagTable Sample.helmets Sample.constraints tt
           [Sample.raidMod] [] "legendary-" Sample.legendaryBucket
           (Sample.m Sample.owned) (Sample.m Sample.worse) sample_bucket).
  - in_computed.
  - in_computed.
Defined.

Lemma C4_witness :
  Sample.m Sample.vendor ∈
    prune (isStrictlyBetter (Sample.cache Sample.helmets)) Sample.legendaryBucket /\
  Sample.m Sample.owned ∈
    prune (isStrictlyBetter (Sample.cache Sample.helmets)) Sample.legendaryBucket /\
  isStrictlyBetter (Sample.cache Sample.helmets)
    (Sample.m Sample.vendor) (Sample.m Sample.owned) = false /\
  isStrictlyBetter (Sample.cache Sample.helmets)
    (Sample.m Sample.owned) (Sample.m Sample.vendor) = false.
Proof.
  assert (H1 : Sample.m Sample.vendor ∈
    prune (isStrictlyBetter (Sample.cache Sample.helmets)) Sample.legendaryBucket)
    by in_computed.
  assert (H2 : Sample.m Sample.owned ∈
    prune (isStrictlyBetter (Sample.cache Sample.helmets)) Sample.legendaryBucket)
    by in_computed.
  refine (conj H1 (conj H2 _)).
  exact (C4_kept_set_is_antichain unit Sample.toProcessItem
           Sample.tagTable Sample.helmets Sample.constraints tt
           [Sample.raidMod] [] "legendary-" Sample.legendaryBucket
           (Sample.m Sample.vendor) (Sample.m Sample.owned) sample_bucket H1 H2).
Defined.

Lemma C5_witness :
  dominates Sample.constraints Sample.required
    (processItem (Sample.m Sample.owned)) (processItem (Sample.m Sample.worse)) /\
  Sample.m Sample.worse ∉
    prune (isStrictlyBetter (Sample.cache Sample.helmets)) Sample.legendaryBucket.
Proof.
  assert (Hdom : dominates Sample.constraints Sample.required
    (processItem (Sample.m Sample.owned)) (processItem (Sample.m Sample.worse))).
  { apply (isStrictlyBetter_dominates unit Sample.toProcessItem
             Sample.constraints Sample.required tt [] Sample.helmets).
    - in_computed.
    - in_computed.
    - exact sample_owned_beats_worse. }
  split; [exact Hdom|].
  apply (C5_dominated_item_is_pruned unit Sample.toProcessItem
           Sample.tagTable Sample.helmets Sample.constraints tt
           [Sample.raidMod] [] "legendary-" Sample.legendaryBucket
           (Sample.m Sample.owned) (Sample.m Sample.worse) sample_bucket).
  - in_computed.
  - in_computed.
  - exact Hdom.
Defined.

Lemma C6_witness :
  rev Sample.legendaryBucket ≡ₚ Sample.legendaryBucket /\
  forall x,
    x ∈ prune (isStrictlyBetter (Sample.cache Sample.helmets))
          (rev Sample.legendaryBucket) <->
    x ∈ prune (isStrictlyBetter (Sample.cache Sample.helmets)) Sample.legendaryBucket.
Proof.
  assert (Hp : rev Sample.legendaryBucket ≡ₚ Sample.legendaryBucket).
  { symmetry. apply Permutation_rev. }
  split; [exact Hp|].
  exact (C6_kept_set_independent_of_order unit Sample.toProcessItem
           Sample.tagTable Sample.helmets Sample.constraints tt
           [Sample.raidMod] [] "legendary-" Sample.legendaryBucket
           (rev Sample.legendaryBucket) sample_bucket Hp).
Defined.

Lemma toItemGroup_sorted (cmp : MappedItem -> MappedItem -> Z) grp :
  grp <> [] ->
  exists g, toItemGroup (Js.sort cmp grp) = [g] /\
            ItemGroup.items g = map dimItem (Js.sort cmp grp).
Proof.
  intros Hne. destruct (Js.sort cmp grp) as [|first rest] eqn:Es.
  - exfalso. apply Hne. apply Permutation_nil_r. by rewrite <- (sort_perm cmp grp), Es.
  - eexists. split; [reflexivity|done].
Qed.

Lemma groups_of_grouped (cmp : MappedItem -> MappedItem -> Z)
    (gs : list (string * list MappedItem)) :
  Forall (fun kg => snd kg <> []) gs ->
  let groups := flat_map toItemGroup (map (fun kg => Js.sort cmp (snd kg)) gs) in
  concat (map ItemGroup.items groups) ≡ₚ map dimItem (concat (map snd gs)) /\
  length groups = length gs.
Proof.
  induction gs as [|[k grp] gs IH]; intros Hall; simpl; [done|].
  inversion Hall as [|? ? Hne Hall']; subst. simpl in Hne.
  destruct (toItemGroup_sorted cmp grp Hne) as (g & -> & Hitems).
  destruct (IH Hall') as [IH1 IH2]. simpl. split.
  - rewrite Hitems, IH1, map_app. by rewrite sort_perm.
  - by rewrite IH2.
Qed.

(** C7. The groups built from a kept set partition it: the member lists of
    the groups, put together, hold every kept item once and nothing else,
    and there are at most as many groups as kept items. *)
Theorem C7_groups_partition_kept_set
    (getUserItemTag : TagLookup) (cache : gmap DimItem.t Info.t)
    (keepSet : list MappedItem) :
  let groups := groupsOfKeepSet getUserItemTag cache keepSet in
  concat (map ItemGroup.items groups) ≡ₚ map dimItem keepSet /\
  (length groups <= length keepSet)%nat.
Proof.
  unfold groupsOfKeepSet, sortedGroups.
  set (key := fun m => finalGroupingFn cache (dimItem m)).
  destruct (groups_of_grouped (groupComparator getUserItemTag)
              (Js.groupBy key keepSet)) as [H1 H2].
  - destruct (groupBy_grouped key keepSet) as [_ Hall].
    eapply Forall_impl; [exact Hall|]. by intros kg [? _].
  - simpl. split.
    + by rewrite H1, (groupBy_perm key keepSet).
    + rewrite H2. apply groupBy_length.
Qed.

(** C9. No group holds an exotic together with a legendary, nor two
    exotics with different hashes: any two members of a group agree on the
    exotic flag, and on the hash when they are exotic. *)
Theorem C9_groups_respect_exoticness
    (ArmorEnergyRules : Type)
    (mapDimItemToProcessItem :
       DimItem.t -> ArmorEnergyRules -> list PluggableInventoryItemDefinition ->
       ProcessItem.t)
    (getModTypeTagByPlugCategoryHash : Z -> option string)
    (items : list DimItem.t)
    (resolvedStatConstraints : list ResolvedStatConstraint)
    (armorEnergyRules : ArmorEnergyRules)
    (activityMods modsForSlot : list PluggableInventoryItemDefinition)
    (getUserItemTag : TagLookup) (g : ItemGroup.t) (d1 d2 : DimItem.t) :
  g ∈ mapItemsToGroups ArmorEnergyRules mapDimItemToProcessItem
        getModTypeTagByPlugCategoryHash items resolvedStatConstraints
        armorEnergyRules activityMods modsForSlot getUserItemTag ->
  d1 ∈ ItemGroup.items g -> d2 ∈ ItemGroup.items g ->
  let p d := mapDimItemToProcessItem d armorEnergyRules modsForSlot in
  ProcessItem.isExotic (p d1) = ProcessItem.isExotic (p d2) /\
  (ProcessItem.isExotic (p d1) = true ->
   ProcessItem.hash (p d1) = ProcessItem.hash (p d2)).
Proof.
  intros Hg H1 H2 p.
  apply group_origin in Hg
    as (k & bucket & kf & grp & first & rest & Hb & Hgrp & Es & ->).
  simpl in H1, H2.
  edestruct member_origin as (_ & _ & B1 & _ & _);
    [exact Hb | exact Hgrp | exact Es | exact H1 |].
  edestruct member_origin as (_ & _ & B2 & _ & _);
    [exact Hb | exact Hgrp | exact Es | exact H2 |].
  apply firstPassGroupingFn_inj.
  pose proof (bucket_key _ _ _ _ _ _ _ _ Hb B1) as K1.
  pose proof (bucket_key _ _ _ _ _ _ _ _ Hb B2) as K2.
  simpl in K1, K2. unfold p. congruence.
Qed.

Lemma C9_witness :
  let g := {| ItemGroup.canonicalProcessItem := Sample.toProcessItem Sample.owned tt [];
              ItemGroup.items := [Sample.owned; Sample.vendor] |} in
  g ∈ Sample.groups Sample.helmets /\
  ProcessItem.isExotic (Sample.toProcessItem Sample.owned tt []) =
    ProcessItem.isExotic (Sample.toProcessItem Sample.vendor tt []) /\
  (ProcessItem.isExotic (Sample.toProcessItem Sample.owned tt []) = true ->
   ProcessItem.hash (Sample.toProcessItem Sample.owned tt []) =
     ProcessItem.hash (Sample.toProcessItem Sample.vendor tt [])).
Proof.
  intros g.
  assert (Hg : g ∈ Sample.groups Sample.helmets) by in_computed.
  split; [exact Hg|].
  apply (C9_groups_respect_exoticness unit Sample.toProcessItem
           Sample.tagTable Sample.helmets Sample.constraints tt
           [Sample.raidMod] [] None g Sample.owned Sample.vendor Hg).
  - in_computed.
  - in_computed.
Defined.

(** ** The in-group order *)

Lemma groupComparator_le getTag x y :
  groupComparator getTag x y <= 0 <-> tieBreakLe getTag (dimItem x) (dimItem y).
Proof.
  unfold groupComparator, tieBreakLe, isFavorite, chainComparator, compareBy.
  destruct x as [a pa], y as [b pb]. simpl.
  generalize (default 0 (DimItem.energy a)) (default 0 (DimItem.energy b)).
  generalize (isNotFavorite getTag a) (isNotFavorite getTag b).
  destruct a as [ia ha ea va pwa qa], b as [ib hb eb vb pwb qb]. simpl.
  intros fa fb za zb.
  destruct va, vb, fa, fb, qa, qb; simpl;
    repeat match goal with
           | |- context [?u <? ?v] => destruct (Z.ltb_spec u v)
           | |- context [?u >? ?v] => destruct (Z.gtb_spec u v)
           end; simpl; split; intros; try lia; intuition (try lia; try congruence).
Qed.

Lemma StronglySorted_map {A B} (R : A -> A -> Prop) (R' : B -> B -> Prop)
    (f : A -> B) l :
  (forall a b, R a b -> R' (f a) (f b)) ->
  StronglySorted R l -> StronglySorted R' (map f l).
Proof.
  intros HR. induction 1 as [|x l Hl IH Hx]; simpl; constructor; [done|].
  apply Forall_forall. intros y (a & -> & Ha)%list_elem_of_fmap.
  rewrite Forall_forall in Hx. by apply HR, Hx.
Qed.

Lemma prune_pair (better : MappedItem -> MappedItem -> bool) a b :
  better a b = false -> better b a = false -> prune better [a; b] = [a; b].
Proof.
  intros Hab Hba. unfold prune, pruneStep. simpl. by rewrite Hab, Hba.
Qed.

Lemma groupBy_pair {A} (key : A -> string) (a b : A) :
  key a = key b -> Js.groupBy key [a; b] = [(key a, [a; b])].
Proof.
  intros E. unfold Js.groupBy. simpl. by rewrite <- E, String.eqb_refl.
Qed.

Section Pairs.
Context (ArmorEnergyRules : Type).
Context (mapDimItemToProcessItem :
  DimItem.t -> ArmorEnergyRules -> list PluggableInventoryItemDefinition ->
  ProcessItem.t).
Context (getModTypeTagByPlugCategoryHash : Z -> option string).
Context (cs : list ResolvedStatConstraint) (rules : ArmorEnergyRules).
Context (activityMods modsForSlot : list PluggableInventoryItemDefinition).
Context (getUserItemTag : TagLookup).

Local Abbreviation req :=
  (requiredModTagsOf getModTypeTagByPlugCategoryHash activityMods).
Local Abbreviation mapper :=
  (mapItem ArmorEnergyRules mapDimItemToProcessItem rules modsForSlot).
Local Abbreviation mapped :=
  (mapItems ArmorEnergyRules mapDimItemToProcessItem rules modsForSlot).
Local Abbreviation cacheOf items := (buildCache cs req (mapped items)).

(** Items with the same cached record are not comparable. *)
Lemma same_info_incomparable items m1 m2 :
  m1 ∈ mapped items -> m2 ∈ mapped items ->
  cacheEntry cs req m1 = cacheEntry cs req m2 ->
  isStrictlyBetter (cacheOf items) m1 m2 = false.
Proof.
  intros H1 H2 E.
  destruct (isStrictlyBetter (cacheOf items) m1 m2) eqn:Hb; [exfalso|done].
  apply isStrictlyBetter_dominates in Hb as [_ Hst]; [|done|done].
  assert (Hs := f_equal Info.stats E). assert (He := f_equal Info.energyCapacity E).
  assert (Ha := f_equal Info.isArtifice E).
  assert (Ht := f_equal Info.relevantModSeasons E).
  unfold cacheEntry in Hs, He, Ha. simpl in Hs, He, Ha.
  destruct Hst as [(c & Hc & H)|[H|[[Ha1 Ha2]|(t & Ht1 & Ht2)]]].
  - apply list_elem_of_In in Hc.
    pose proof (proj1 map_ext_in_iff Hs c Hc) as E'. simpl in E'. lia.
  - lia.
  - congruence.
  - apply Ht2. apply entry_tags with (cs := cs). rewrite <- Ht.
    by apply entry_tags.
Qed.

(** What [mapItemsToGroups] returns for two legendaries that share the
    cached record, whichever comes first in the input: one group, sorted
    by [groupComparator]. *)
Lemma groups_of_twins d1 d2 items :
  items = [d1; d2] \/ items = [d2; d1] ->
  ProcessItem.isExotic (processItem (mapper d1)) = false ->
  ProcessItem.isExotic (processItem (mapper d2)) = false ->
  cacheEntry cs req (mapper d1) = cacheEntry cs req (mapper d2) ->
  groupComparator getUserItemTag (mapper d1) (mapper d2) < 0 ->
  mapItemsToGroups ArmorEnergyRules mapDimItemToProcessItem
    getModTypeTagByPlugCategoryHash items cs rules activityMods modsForSlot
    getUserItemTag =
  [ {| ItemGroup.canonicalProcessItem := processItem (mapper d1);
       ItemGroup.items := [d1; d2] |} ].
Proof.
  intros Hitems X1 X2 E Hcmp.
  assert (Hcmp' : groupComparator getUserItemTag (mapper d2) (mapper d1) > 0).
  { rewrite (cmp_opp (ThreeWay := groupComparator_ThreeWay getUserItemTag)). lia. }
  assert (Hin : forall d, d ∈ items -> mapper d ∈ mapped items).
  { intros d Hd. apply mapped_elem. by exists d. }
  assert (M1 : mapper d1 ∈ mapped items).
  { apply Hin. destruct Hitems as [-> | ->]; [by left|right; by left]. }
  assert (M2 : mapper d2 ∈ mapped items).
  { apply Hin. destruct Hitems as [-> | ->]; [right; by left|by left]. }
  assert (B12 := same_info_incomparable items _ _ M1 M2 E).
  assert (B21 := same_info_incomparable items _ _ M2 M1 (eq_sym E)).
  assert (K : finalGroupingFn (cacheOf items) d1 = finalGroupingFn (cacheOf items) d2).
  { unfold finalGroupingFn.
    rewrite (cacheGet_mapped _ _ _ _ _ _ items (mapper d1) M1).
    rewrite (cacheGet_mapped _ _ _ _ _ _ items (mapper d2) M2). by rewrite E. }
  unfold mapItemsToGroups, energyGroups, groupsOfKeepSet, sortedGroups.
  destruct Hitems as [Hi | Hi]; rewrite Hi in *;
    change (mapped [d1; d2]) with [mapper d1; mapper d2] in *;
    change (mapped [d2; d1]) with [mapper d2; mapper d1] in *.
  - rewrite (groupBy_pair (fun m => firstPassGroupingFn (processItem m)));
      [|unfold firstPassGroupingFn; by rewrite X1, X2].
    simpl. rewrite (prune_pair _ _ _ B12 B21).
    rewrite (groupBy_pair _ (mapper d1) (mapper d2)) by exact K.
    simpl. destruct (Z.leb_spec (groupComparator getUserItemTag (mapper d1) (mapper d2)) 0); [done|lia].
  - rewrite (groupBy_pair (fun m => firstPassGroupingFn (processItem m)));
      [|unfold firstPassGroupingFn; by rewrite X1, X2].
    simpl. rewrite (prune_pair _ _ _ B21 B12).
    rewrite (groupBy_pair _ (mapper d2) (mapper d1)) by (symmetry; exact K).
    simpl. destruct (Z.leb_spec (groupComparator getUserItemTag (mapper d2) (mapper d1)) 0); [lia|done].
Qed.

End Pairs.

(** C8 (as amended). The member list of every group is ordered by the
    tie-break order (higher energy capacity, then owned before
    vendor-sourced, then favorited, then higher power, then equipped), it
    holds every item of one class of the kept set, and the representative
    is the process item of its first member. In particular, two
    legendaries that agree on the cached stats, remaining energy capacity,
    relevant mod tags and artifice flag and on their own energy capacity,
    one owned and one vendor-sourced, both survive pruning and form one
    group led by the owned one, whichever comes first in the input. *)
Theorem C8_groups_sorted_by_tie_break
    (ArmorEnergyRules : Type)
    (mapDimItemToProcessItem :
       DimItem.t -> ArmorEnergyRules -> list PluggableInventoryItemDefinition ->
       ProcessItem.t)
    (getModTypeTagByPlugCategoryHash : Z -> option string)
    (resolvedStatConstraints : list ResolvedStatConstraint)
    (armorEnergyRules : ArmorEnergyRules)
    (activityMods modsForSlot : list PluggableInventoryItemDefinition)
    (getUserItemTag : TagLookup) :
  let run items :=
    mapItemsToGroups ArmorEnergyRules mapDimItemToProcessItem
      getModTypeTagByPlugCategoryHash items resolvedStatConstraints
      armorEnergyRules activityMods modsForSlot getUserItemTag in
  let mapped items :=
    mapItems ArmorEnergyRules mapDimItemToProcessItem armorEnergyRules
      modsForSlot items in
  let requiredModTags :=
    requiredModTagsOf getModTypeTagByPlugCategoryHash activityMods in
  let cache items := buildCache resolvedStatConstraints requiredModTags (mapped items) in
  let info d :=
    cacheEntry resolvedStatConstraints requiredModTags
      (mapItem ArmorEnergyRules mapDimItemToProcessItem armorEnergyRules modsForSlot d) in
  (forall items g,
     g ∈ run items ->
     StronglySorted (tieBreakLe getUserItemTag) (ItemGroup.items g) /\
     (exists first rest,
        ItemGroup.items g = first :: rest /\
        ItemGroup.canonicalProcessItem g =
          mapDimItemToProcessItem first armorEnergyRules modsForSlot) /\
     (exists k bucket kf grp,
        (k, bucket) ∈ energyGroups (mapped items) /\
        (kf, grp) ∈ Js.groupBy
                      (fun m => finalGroupingFn (cache items) (dimItem m))
                      (prune (isStrictlyBetter (cache items)) bucket) /\
        ItemGroup.items g ≡ₚ map dimItem grp)) /\
  (forall dOwned dVendor items,
     items = [dOwned; dVendor] \/ items = [dVendor; dOwned] ->
     ProcessItem.isExotic
       (mapDimItemToProcessItem dOwned armorEnergyRules modsForSlot) = false ->
     ProcessItem.isExotic
       (mapDimItemToProcessItem dVendor armorEnergyRules modsForSlot) = false ->
     Info.stats (info dOwned) = Info.stats (info dVendor) ->
     Info.energyCapacity (info dOwned) = Info.energyCapacity (info dVendor) ->
     Info.relevantModSeasons (info dOwned) = Info.relevantModSeasons (info dVendor) ->
     Info.isArtifice (info dOwned) = Info.isArtifice (info dVendor) ->
     default 0 (DimItem.energy dOwned) = default 0 (DimItem.energy dVendor) ->
     DimItem.vendor dOwned = false -> DimItem.vendor dVendor = true ->
     run items =
       [ {| ItemGroup.canonicalProcessItem :=
              mapDimItemToProcessItem dOwned armorEnergyRules modsForSlot;
            ItemGroup.items := [dOwned; dVendor] |} ]).
Proof.
  intros run mapped requiredModTags cache info. split.
  - intros items g Hg.
    apply group_origin in Hg
      as (k & bucket & kf & grp & first & rest & Hb & Hgrp & Es & ->).
    cbn [ItemGroup.items ItemGroup.canonicalProcessItem].
    refine (conj _ (conj _ _)).
    + rewrite <- Es.
      apply StronglySorted_map
        with (R := fun a b => groupComparator getUserItemTag a b <= 0).
      * intros a b. apply groupComparator_le.
      * apply sort_sorted. apply groupComparator_ThreeWay.
    + exists (dimItem first), (map dimItem rest). split; [done|].
      assert (Hf : first ∈ grp).
      { rewrite <- (sort_perm (groupComparator getUserItemTag) grp), Es. by left. }
      assert (Hm : first ∈ mapped items).
      { eapply bucket_mapped; [exact Hb|].
        eapply kept_in_bucket; [|eapply groupBy_member; [exact Hgrp|exact Hf]].
        intros s. by apply bucket_mapped with k. }
      apply mapped_dimItem in Hm. by rewrite Hm at 1.
    + exists k, bucket, kf, grp. refine (conj Hb (conj Hgrp _)).
      rewrite <- Es. by rewrite sort_perm.
  - intros dOwned dVendor items Hitems X1 X2 Hs He Ht Ha Hen V1 V2.
    apply groups_of_twins; try done.
    + unfold info in *. clear -Hs He Ht Ha.
      destruct (cacheEntry _ _ _), (cacheEntry _ _ _). simpl in *. by subst.
    + unfold groupComparator, chainComparator, compareBy, mapItem. simpl.
      rewrite Hen, V1, V2, Z.ltb_irrefl, Z.gtb_ltb, Z.ltb_irrefl. done.
Qed.

Lemma C8_witness :
  let g := {| ItemGroup.canonicalProcessItem := Sample.toProcessItem Sample.owned tt [];
              ItemGroup.items := [Sample.owned; Sample.vendor] |} in
  (g ∈ Sample.groups Sample.helmets /\
   StronglySorted (tieBreakLe None) (ItemGroup.items g)) /\
  Sample.groups [Sample.vendor; Sample.owned] = [g].
Proof.
  intros g.
  pose proof (C8_groups_sorted_by_tie_break unit Sample.toProcessItem
                Sample.tagTable Sample.constraints tt [Sample.raidMod] [] None)
    as [HA HB].
  assert (Hg : g ∈ Sample.groups Sample.helmets) by in_computed.
  split.
  - split; [exact Hg|]. exact (proj1 (HA Sample.helmets g Hg)).
  - apply (HB Sample.owned Sample.vendor); try reflexivity. by right.
Defined.

(** The unamended C8 fails: an owned, equipped legendary with the artifice
    slot and a vendor-sourced one without it agree on stats, energy and
    mod tags, yet the vendor-sourced one does not survive pruning and the
    only group holds the owned item alone. *)
Lemma C8_counterexample :
  let info d :=
    cacheEntry Sample.constraints Sample.required (Sample.m d) in
  ((ProcessItem.isExotic (processItem (Sample.m Sample.artifice)) = false /\
    ProcessItem.isExotic (processItem (Sample.m Sample.vendor)) = false) /\
   Info.stats (info Sample.artifice) = Info.stats (info Sample.vendor) /\
   Info.energyCapacity (info Sample.artifice) = Info.energyCapacity (info Sample.vendor) /\
   DimItem.energy Sample.artifice = DimItem.energy Sample.vendor /\
   Info.relevantModSeasons (info Sample.artifice) =
     Info.relevantModSeasons (info Sample.vendor) /\
   (DimItem.vendor Sample.artifice = false /\ DimItem.equipped Sample.artifice = true) /\
   DimItem.vendor Sample.vendor = true) /\
  (Sample.m Sample.vendor ∉
     prune (isStrictlyBetter (Sample.cache [Sample.artifice; Sample.vendor]))
       [Sample.m Sample.artifice; Sample.m Sample.vendor]) /\
  Sample.groups [Sample.artifice; Sample.vendor] =
    [ {| ItemGroup.canonicalProcessItem := Sample.toProcessItem Sample.artifice tt [];
         ItemGroup.items := [Sample.artifice] |} ].
Proof.
  intros info. split; [|split].
  - by vm_compute.
  - intros H. apply list_elem_of_In in H. vm_compute in H.
    destruct H as [H|[]]. discriminate H.
  - by vm_compute.
Qed.

(** ** The index built by [runProcess] *)

Section Index.
Context (ArmorEnergyRules : Type).
Context (mapDimItemToProcessItem :
  DimItem.t -> ArmorEnergyRules -> list PluggableInventoryItemDefinition ->
  ProcessItem.t).
Context (getModTypeTagByPlugCategoryHash : Z -> option string).
Context (BucketHashes : ArmorBuckets).
Context (resolvedStatConstraints : list ResolvedStatConstraint).
Context (armorEnergyRules : ArmorEnergyRules) (lockedModMap : ModMap).
Context (getUserItemTag : TagLookup).

(** The representative of a group is the process item of an input item. *)
Lemma canonical_origin items activity modsForSlot g :
  g ∈ mapItemsToGroups ArmorEnergyRules mapDimItemToProcessItem
        getModTypeTagByPlugCategoryHash items resolvedStatConstraints
        armorEnergyRules activity modsForSlot getUserItemTag ->
  exists d, d ∈ items /\
    ItemGroup.canonicalProcessItem g =
      mapDimItemToProcessItem d armorEnergyRules modsForSlot.
Proof.
  intros Hg.
  apply group_origin in Hg
    as (k & bucket & kf & grp & first & rest & Hb & Hgrp & Es & ->).
  assert (Hf : first ∈ grp).
  { rewrite <- (sort_perm (groupComparator getUserItemTag) grp), Es. by left. }
  assert (M : first ∈ mapItems ArmorEnergyRules mapDimItemToProcessItem
                armorEnergyRules modsForSlot items).
  { eapply bucket_mapped; [exact Hb|].
    eapply kept_in_bucket; [|eapply groupBy_member; [exact Hgrp|exact Hf]].
    intros s. by apply bucket_mapped with k. }
  apply mapped_elem in M as (d & -> & Hd). by exists d.
Qed.

Lemma pushGroup_indexed candidates bucketHash st g :
  ItemGroup.canonicalProcessItem g ∈ candidates ->
  indexed candidates st -> indexed candidates (pushGroup bucketHash st g).
Proof.
  intros Hc [I1 I2]. destruct st as [processItems itemsById].
  unfold pushGroup. simpl in *. split; simpl.
  - intros i g' Hl.
    destruct (decide (ProcessItem.id (ItemGroup.canonicalProcessItem g) = i)) as [E|E].
    + rewrite E, lookup_insert_eq in Hl. inversion Hl; subst. done.
    + rewrite lookup_insert_ne in Hl by done. by apply I1.
  - intros b l p Hl Hp.
    assert (Hkeep : forall q, is_Some (itemsById !! ProcessItem.id q) ->
              is_Some (<[ProcessItem.id (ItemGroup.canonicalProcessItem g) := g]>
                         itemsById !! ProcessItem.id q)).
    { intros q Hq. rewrite lookup_insert_is_Some.
      destruct (decide (ProcessItem.id (ItemGroup.canonicalProcessItem g) =
                        ProcessItem.id q)); [by left|by right]. }
    destruct (decide (bucketHash = b)) as [<-|Hne].
    + rewrite lookup_alter_eq in Hl.
      destruct (processItems !! bucketHash) as [l0|] eqn:E0; [|done].
      simpl in Hl. inversion Hl; subst.
      apply elem_of_app in Hp as [Hp|Hp%list_elem_of_singleton].
      * destruct (I2 _ _ _ E0 Hp) as [? ?]. split; [done|by apply Hkeep].
      * subst. split; [done|]. rewrite lookup_insert_eq. by eexists.
    + rewrite lookup_alter_ne in Hl by done.
      destruct (I2 _ _ _ Hl Hp) as [? ?]. split; [done|by apply Hkeep].
Qed.

Lemma processBucket_indexed filteredItems st entry :
  entry ∈ filteredItems ->
  indexed (candidateProcessItems ArmorEnergyRules mapDimItemToProcessItem
             armorEnergyRules lockedModMap filteredItems) st ->
  indexed (candidateProcessItems ArmorEnergyRules mapDimItemToProcessItem
             armorEnergyRules lockedModMap filteredItems)
    (processBucket ArmorEnergyRules mapDimItemToProcessItem
       getModTypeTagByPlugCategoryHash resolvedStatConstraints
       armorEnergyRules lockedModMap getUserItemTag st entry).
Proof.
  intros He Hst. unfold processBucket.
  set (groupedItems := mapItemsToGroups _ _ _ _ _ _ _ _ _).
  set (U := candidateProcessItems _ _ _ _ _) in *.
  assert (Hcand : forall g, g ∈ groupedItems -> ItemGroup.canonicalProcessItem g ∈ U).
  { intros g Hg. apply canonical_origin in Hg as (d & Hd & ->).
    apply list_elem_of_In, in_flat_map. exists entry.
    split; [by apply list_elem_of_In|].
    apply in_map_iff. exists d. split; [done|by apply list_elem_of_In]. }
  assert (Hstart : indexed U (<[fst entry := []]> (fst st), snd st)).
  { destruct Hst as [I1 I2]. split; simpl; [done|].
    intros b l p Hl Hp.
    destruct (decide (fst entry = b)) as [<-|Hne].
    - rewrite lookup_insert_eq in Hl. inversion Hl; subst.
      by apply elem_of_nil in Hp.
    - rewrite lookup_insert_ne in Hl by done. by eapply I2. }
  clearbody groupedItems.
  revert Hstart. generalize (<[fst entry := []]> (fst st), snd st).
  induction groupedItems as [|g gs IH]; intros st0 Hst0; simpl; [done|].
  apply IH.
  - intros g' Hg'. apply Hcand. by right.
  - apply pushGroup_indexed; [|done]. apply Hcand. by left.
Qed.

Lemma emptyProcessItems_indexed candidates :
  indexed candidates (emptyProcessItems BucketHashes, ∅).
Proof.
  split; simpl.
  - intros i g Hl. by rewrite lookup_empty in Hl.
  - intros b l p Hl Hp. exfalso. unfold emptyProcessItems in Hl.
    repeat (rewrite lookup_insert in Hl; case_decide;
            [inversion Hl; subst; by apply elem_of_nil in Hp|]).
    by rewrite lookup_empty in Hl.
Qed.

Lemma prepareItems_indexed filteredItems :
  indexed (candidateProcessItems ArmorEnergyRules mapDimItemToProcessItem
             armorEnergyRules lockedModMap filteredItems)
    (prepareItems ArmorEnergyRules mapDimItemToProcessItem
       getModTypeTagByPlugCategoryHash BucketHashes filteredItems
       resolvedStatConstraints armorEnergyRules lockedModMap getUserItemTag).
Proof.
  unfold prepareItems.
  set (U := candidateProcessItems _ _ _ _ _).
  assert (Hgen : forall entries st,
    (forall e, e ∈ entries -> e ∈ filteredItems) -> indexed U st ->
    indexed U (fold_left
      (processBucket ArmorEnergyRules mapDimItemToProcessItem
         getModTypeTagByPlugCategoryHash resolvedStatConstraints
         armorEnergyRules lockedModMap getUserItemTag) entries st)).
  { induction entries as [|e es IH]; intros st Hin Hst; simpl; [done|].
    apply IH.
    - intros e' He'. apply Hin. by right.
    - apply processBucket_indexed; [|done]. apply Hin. by left. }
  apply Hgen; [done|]. apply emptyProcessItems_indexed.
Qed.

End Index.

(** C10. Provided the ids of the process items computed from the input
    tell them apart, every process item placed in [processItems] has its
    id in [itemsById], and the group found there has that very process
    item as its representative. Hence hydrating a set whose per-slot ids
    are ids of process items that were sent succeeds, and the
    representatives of the groups it yields are those process items. *)
Theorem C10_hydration_round_trip
    (ArmorEnergyRules : Type)
    (mapDimItemToProcessItem :
       DimItem.t -> ArmorEnergyRules -> list PluggableInventoryItemDefinition ->
       ProcessItem.t)
    (getModTypeTagByPlugCategoryHash : Z -> option string)
    (BucketHashes : ArmorBuckets)
    (filteredItems : list (Z * list DimItem.t))
    (resolvedStatConstraints : list ResolvedStatConstraint)
    (armorEnergyRules : ArmorEnergyRules) (lockedModMap : ModMap)
    (getUserItemTag : TagLookup) :
  let prepared :=
    prepareItems ArmorEnergyRules mapDimItemToProcessItem
      getModTypeTagByPlugCategoryHash BucketHashes filteredItems
      resolvedStatConstraints armorEnergyRules lockedModMap getUserItemTag in
  let processItems := fst prepared in
  let itemsById := snd prepared in
  let candidates :=
    candidateProcessItems ArmorEnergyRules mapDimItemToProcessItem
      armorEnergyRules lockedModMap filteredItems in
  (forall p q, p ∈ candidates -> q ∈ candidates ->
     ProcessItem.id p = ProcessItem.id q -> p = q) ->
  (forall bucketHash sent p,
     processItems !! bucketHash = Some sent -> p ∈ sent ->
     exists group,
       itemsById !! ProcessItem.id p = Some group /\
       ItemGroup.canonicalProcessItem group = p) /\
  (forall chosen : list ProcessItem.t,
     (forall p, p ∈ chosen ->
        exists bucketHash sent, processItems !! bucketHash = Some sent /\ p ∈ sent) ->
     exists hydrated,
       hydrateArmorSet {| armor := map ProcessItem.id chosen |} itemsById =
         Some hydrated /\
       map ItemGroup.canonicalProcessItem hydrated = chosen).
Proof.
  intros prepared processItems itemsById candidates Hids.
  destruct (prepareItems_indexed ArmorEnergyRules mapDimItemToProcessItem
              getModTypeTagByPlugCategoryHash BucketHashes
              resolvedStatConstraints armorEnergyRules lockedModMap
              getUserItemTag filteredItems) as [I1 I2].
  fold prepared in I1, I2. fold candidates in I1, I2.
  assert (Hsent : forall bucketHash sent p,
    processItems !! bucketHash = Some sent -> p ∈ sent ->
    exists group, itemsById !! ProcessItem.id p = Some group /\
                  ItemGroup.canonicalProcessItem group = p).
  { intros b sent p Hl Hp. destruct (I2 b sent p Hl Hp) as [Hc [g Hg]].
    exists g. split; [done|]. destruct (I1 _ _ Hg) as [Hid Hcg].
    by apply Hids. }
  split; [exact Hsent|].
  intros chosen Hch. unfold hydrateArmorSet. simpl.
  induction chosen as [|p ps IH].
  - by exists [].
  - destruct (Hch p) as (b & sent & Hl & Hp); [by left|].
    destruct (Hsent b sent p Hl Hp) as (g & Hg & Hcg).
    destruct IH as (gs & Hgs & Hmap).
    { intros q Hq. apply Hch. by right. }
    exists (g :: gs). split; [|simpl; by rewrite Hcg, Hmap].
    apply mapM_Some. simpl. constructor; [done|]. by apply mapM_Some.
Qed.

Lemma sample_ids_distinct p q :
  p ∈ candidateProcessItems unit Sample.toProcessItem tt Sample.lockedMods
        Sample.filteredItems ->
  q ∈ candidateProcessItems unit Sample.toProcessItem tt Sample.lockedMods
        Sample.filteredItems ->
  ProcessItem.id p = ProcessItem.id q -> p = q.
Proof.
  intros Hp%list_elem_of_In Hq%list_elem_of_In.
  vm_compute in Hp, Hq.
  repeat match goal with
         | H : _ \/ _ |- _ => destruct H as [H|H]
         | H : False |- _ => destruct H
         end; subst; simpl; intros E; first [reflexivity | discriminate E].
Qed.

Lemma C10_witness :
  let prepared :=
    prepareItems unit Sample.toProcessItem Sample.tagTable Sample.buckets
      Sample.filteredItems Sample.constraints tt Sample.lockedMods None in
  let p := Sample.toProcessItem Sample.owned tt [] in
  exists group,
    snd prepared !! ProcessItem.id p = Some group /\
    ItemGroup.canonicalProcessItem group = p.
Proof.
  intros prepared p.
  destruct (C10_hydration_round_trip unit Sample.toProcessItem Sample.tagTable
              Sample.buckets Sample.filteredItems Sample.constraints tt
              Sample.lockedMods None sample_ids_distinct) as [Hsent _].
  apply (Hsent 3448274439
           [Sample.toProcessItem Sample.owned tt [];
            Sample.toProcessItem Sample.exotic tt []]).
  - by vm_compute.
  - by left.
Defined.

(** ** Settlement of [resultPromise] *)

Section Settlement.
Import Dispatcher.
Context (itemsById : gmap string ItemGroup.t).

Lemma cleanup_released s :
  wellFormed s ->
  wellFormed (cleanup s) /\ terminations (cleanup s) = 1%nat /\
  resultPromise (cleanup s) = resultPromise s.
Proof.
  intros [[[Hc Ht]|[Hc Ht]] Hr]; unfold cleanup, wellFormed; rewrite Hc; simpl.
  - rewrite Ht. split; [split; [by right|done]|done].
  - rewrite Hc, Ht. split; [split; [by right|done]|done].
Qed.

Lemma step_wellFormed s e : wellFormed s -> wellFormed (step itemsById s e).
Proof.
  intros Hs. destruct e as [result|reason|]; simpl.
  - destruct (workerCanAnswer s); [|done]. unfold onFulfilled.
    apply cleanup_released.
    destruct Hs as [Hc Hr].
    destruct (mapM _ _) as [hydratedSets|]; [|done].
    unfold resolve, settleCall. simpl.
    destruct (resultPromise s) eqn:E; split; simpl; try done; by rewrite E.
  - destruct (workerCanAnswer s); [|done]. by apply cleanup_released.
  - by apply cleanup_released.
Qed.

(** Once the worker has been terminated, no event changes the promise. *)
Lemma step_after_release s e :
  terminations s = 1%nat -> wellFormed s ->
  terminations (step itemsById s e) = 1%nat /\
  resultPromise (step itemsById s e) = resultPromise s.
Proof.
  intros Ht [[[Hc Ht']|[Hc _]] _]; [congruence|].
  destruct e as [result|reason|]; simpl; unfold workerCanAnswer, cleanup;
    rewrite ?Ht, ?Hc, ?andb_false_r; done.
Qed.

Lemma run_after_release events : forall s,
  terminations s = 1%nat -> wellFormed s ->
  resultPromise (fold_left (step itemsById) events s) = resultPromise s /\
  terminations (fold_left (step itemsById) events s) = 1%nat.
Proof.
  induction events as [|e events IH]; intros s Ht Hs; simpl; [done|].
  destruct (step_after_release s e Ht Hs) as [Ht' Hp].
  destruct (IH _ Ht' (step_wellFormed s e Hs)) as [IH1 IH2].
  split; [congruence|done].
Qed.

Lemma init_wellFormed : wellFormed init.
Proof. split; [by left|done]. Qed.

Lemma first_step_releases e :
  terminations (step itemsById init e) = 1%nat.
Proof.
  destruct e as [result|reason|]; simpl; [|done|done].
  unfold onFulfilled. by destruct (mapM _ _).
Qed.

End Settlement.

Lemma run_wellFormed itemsById events : forall s,
  wellFormed s -> wellFormed (fold_left (Dispatcher.step itemsById) events s).
Proof.
  induction events as [|e events IH]; intros s Hs; simpl; [done|].
  by apply IH, step_wellFormed.
Qed.

Lemma run_released itemsById e events :
  Dispatcher.terminations (Dispatcher.run itemsById (e :: events)) = 1%nat /\
  Dispatcher.resultPromise (Dispatcher.run itemsById (e :: events)) =
    Dispatcher.resultPromise (Dispatcher.step itemsById Dispatcher.init e).
Proof.
  unfold Dispatcher.run. simpl.
  destruct (run_after_release itemsById events
              (Dispatcher.step itemsById Dispatcher.init e)) as [H1 H2].
  - apply first_step_releases.
  - apply step_wellFormed, init_wellFormed.
  - done.
Qed.

(** C2 (as amended). Whatever happens after [runProcess] has returned,
    [resultPromise] is never rejected and a fulfilled promise keeps its
    value, and the worker is terminated at most once. When the worker
    answers first and its sets hydrate, the promise is fulfilled with the
    hydrated sets. When the call fails first, or the caller invokes
    [cleanup] first, the worker is terminated and the promise stays
    pending for good. *)
Theorem C2_result_promise_settlement (itemsById : gmap string ItemGroup.t) :
  (forall events, wellFormed (Dispatcher.run itemsById events)) /\
  (forall events more value,
     Dispatcher.resultPromise (Dispatcher.run itemsById events) =
       Dispatcher.Fulfilled value ->
     Dispatcher.resultPromise (Dispatcher.run itemsById (events ++ more)) =
       Dispatcher.Fulfilled value) /\
  (forall result hydratedSets more,
     mapM (fun set => hydrateArmorSet set itemsById) (sets result) =
       Some hydratedSets ->
     Dispatcher.resultPromise
       (Dispatcher.run itemsById (Dispatcher.WorkerResult result :: more)) =
       Dispatcher.Fulfilled hydratedSets /\
     Dispatcher.terminations
       (Dispatcher.run itemsById (Dispatcher.WorkerResult result :: more)) = 1%nat) /\
  (forall first more,
     first = Dispatcher.CallerCleanup \/
     (exists reason, first = Dispatcher.WorkerError reason) ->
     Dispatcher.resultPromise (Dispatcher.run itemsById (first :: more)) =
       Dispatcher.Pending /\
     Dispatcher.terminations (Dispatcher.run itemsById (first :: more)) = 1%nat).
Proof.
  refine (conj _ (conj _ (conj _ _))).
  - intros events. apply run_wellFormed, init_wellFormed.
  - intros [|e events] more value Hv; [discriminate Hv|].
    unfold Dispatcher.run in *. rewrite fold_left_app.
    destruct (run_after_release itemsById more
                (fold_left (Dispatcher.step itemsById) (e :: events) Dispatcher.init))
      as [H1 _].
    + apply (run_released itemsById e events).
    + apply run_wellFormed, init_wellFormed.
    + congruence.
  - intros result hydratedSets more Hh.
    destruct (run_released itemsById (Dispatcher.WorkerResult result) more) as [Ht Hp].
    split; [|done]. rewrite Hp. simpl. unfold Dispatcher.onFulfilled.
    by rewrite Hh.
  - intros first more Hfirst.
    destruct (run_released itemsById first more) as [Ht Hp].
    split; [|done]. rewrite Hp.
    destruct Hfirst as [->|[reason ->]]; done.
Qed.

Lemma C2_witness :
  let itemsById :=
    snd (prepareItems unit Sample.toProcessItem Sample.tagTable Sample.buckets
           Sample.filteredItems Sample.constraints tt Sample.lockedMods None) in
  let result := {| sets := [ {| armor := ["owned"] |} ] |} in
  let group := {| ItemGroup.canonicalProcessItem := Sample.toProcessItem Sample.owned tt [];
                  ItemGroup.items := [Sample.owned; Sample.vendor] |} in
  Dispatcher.resultPromise
    (Dispatcher.run itemsById
       [Dispatcher.WorkerResult result; Dispatcher.CallerCleanup]) =
    Dispatcher.Fulfilled [[group]] /\
  Dispatcher.resultPromise
    (Dispatcher.run itemsById [Dispatcher.CallerCleanup; Dispatcher.WorkerResult result]) =
    Dispatcher.Pending.
Proof.
  intros itemsById result group.
  destruct (C2_result_promise_settlement itemsById) as (_ & _ & Hok & Hko).
  split.
  - apply (Hok result [[group]] [Dispatcher.CallerCleanup]). by vm_compute.
  - apply (Hko Dispatcher.CallerCleanup [Dispatcher.WorkerResult result]). by left.
Defined.

(** The unamended C2 fails: after a failed worker call the promise is
    still pending and no later event settles it; the same holds when the
    caller invokes [cleanup] before the worker has answered. *)
Lemma C2_counterexample :
  (forall more,
     Dispatcher.settled
       (Dispatcher.resultPromise
          (Dispatcher.run ∅ (Dispatcher.WorkerError "worker crashed" :: more))) = false) /\
  (forall more,
     Dispatcher.settled
       (Dispatcher.resultPromise
          (Dispatcher.run ∅ (Dispatcher.CallerCleanup :: more))) = false).
Proof.
  split; intros more.
  - destruct (run_released ∅ (Dispatcher.WorkerError "worker crashed") more) as [_ ->].
    done.
  - destruct (run_released ∅ Dispatcher.CallerCleanup more) as [_ ->]. done.
Qed.

(** * Further properties of the code *)

(** ** Required mod tags and the cache *)

(** X1. [requiredModTags] holds each tag once, and it holds exactly the
    non-empty tags that the tag table gives for some locked activity mod. *)
Theorem X1_requiredModTags_spec
    (getModTypeTagByPlugCategoryHash : Z -> option string)
    (activityMods : list PluggableInventoryItemDefinition) :
  NoDup (requiredModTagsOf getModTypeTagByPlugCategoryHash activityMods) /\
  forall t,
    t ∈ requiredModTagsOf getModTypeTagByPlugCategoryHash activityMods <->
    t <> "" /\
    exists mod_, mod_ ∈ activityMods /\
      getModTypeTagByPlugCategoryHash (plugCategoryHash (plug mod_)) = Some t.
Proof.
  unfold requiredModTagsOf.
  assert (Hfold : forall (l : list PluggableInventoryItemDefinition) acc,
    NoDup acc ->
    let r := fold_left
      (fun requiredModTags mod_ =>
         match getModTypeTagByPlugCategoryHash (plugCategoryHash (plug mod_)) with
         | Some modTag =>
             if String.eqb modTag "" then requiredModTags
             else Js.add requiredModTags modTag
         | None => requiredModTags
         end) l acc in
    NoDup r /\
    forall t, t ∈ r <->
      t ∈ acc \/
      (t <> "" /\ exists mod_, mod_ ∈ l /\
         getModTypeTagByPlugCategoryHash (plugCategoryHash (plug mod_)) = Some t)).
  { induction l as [|x l IH]; intros acc Hacc; simpl.
    - split; [done|]. intros t. split; [by left|].
      intros [?|(_ & m0 & Hm & _)]; [done|]. by apply elem_of_nil in Hm.
    - destruct (getModTypeTagByPlugCategoryHash (plugCategoryHash (plug x)))
        as [modTag|] eqn:Et.
      + destruct (String.eqb_spec modTag "") as [He|Hne].
        * destruct (IH acc Hacc) as [H1 H2]. split; [done|].
          intros t. rewrite H2. split.
          -- intros [?|(Hn & m0 & Hm & Ht)]; [by left|right].
             split; [done|]. exists m0. split; [by right|done].
          -- intros [?|(Hn & m0 & [->|Hm]%elem_of_cons & Ht)]; [by left| |].
             ++ congruence.
             ++ right. split; [done|]. by exists m0.
        * destruct (add_spec acc modTag Hacc) as [Hnd Hin].
          destruct (IH _ Hnd) as [H1 H2]. split; [done|].
          intros t. rewrite H2, Hin. split.
          -- intros [[?| ->]|(Hn & m0 & Hm & Ht)].
             ++ by left.
             ++ right. split; [done|]. exists x. split; [by left|done].
             ++ right. split; [done|]. exists m0. split; [by right|done].
          -- intros [?|(Hn & m0 & [->|Hm]%elem_of_cons & Ht)].
             ++ left. by left.
             ++ left. right. congruence.
             ++ right. split; [done|]. by exists m0.
      + destruct (IH acc Hacc) as [H1 H2]. split; [done|].
        intros t. rewrite H2. split.
        * intros [?|(Hn & m0 & Hm & Ht)]; [by left|right].
          split; [done|]. exists m0. split; [by right|done].
        * intros [?|(Hn & m0 & [->|Hm]%elem_of_cons & Ht)]; [by left| |].
          -- congruence.
          -- right. split; [done|]. by exists m0. }
  destruct (Hfold activityMods [] (NoDup_nil_2)) as [H1 H2].
  split; [done|]. intros t. rewrite H2, elem_of_nil. tauto.
Qed.

Lemma buildCache_dom cs req (ms : list MappedItem) d :
  is_Some (buildCache cs req ms !! d) <-> d ∈ map dimItem ms.
Proof.
  unfold buildCache.
  induction ms as [|x ms IH] using rev_ind.
  - simpl. rewrite lookup_empty, elem_of_nil. split; [by intros [? ?]|done].
  - rewrite fold_left_app, map_app, elem_of_app. simpl.
    rewrite lookup_insert_is_Some, IH, list_elem_of_singleton.
    destruct (decide (dimItem x = d)); intuition.
Qed.

(** X2. The cache has an entry for exactly the items of the input, and
    the entry of an input item is the record computed from its own process
    item; so the non-null assertions on [cache.get] never fail, also when
    an item occurs twice in the input. *)
Theorem X2_cache_lookup
    (ArmorEnergyRules : Type)
    (mapDimItemToProcessItem :
       DimItem.t -> ArmorEnergyRules -> list PluggableInventoryItemDefinition ->
       ProcessItem.t)
    (resolvedStatConstraints : list ResolvedStatConstraint)
    (requiredModTags : list string)
    (armorEnergyRules : ArmorEnergyRules)
    (modsForSlot : list PluggableInventoryItemDefinition)
    (items : list DimItem.t) (d : DimItem.t) :
  buildCache resolvedStatConstraints requiredModTags
    (mapItems ArmorEnergyRules mapDimItemToProcessItem armorEnergyRules
       modsForSlot items) !! d =
  if decide (d ∈ items)
  then Some (cacheEntry resolvedStatConstraints requiredModTags
               (mapItem ArmorEnergyRules mapDimItemToProcessItem
                  armorEnergyRules modsForSlot d))
  else None.
Proof.
  set (ms := mapItems _ _ _ _ items).
  assert (Hmap : map dimItem ms = items).
  { unfold ms, mapItems. rewrite map_map. simpl. apply map_id. }
  destruct (decide (d ∈ items)) as [Hd|Hd].
  - assert (Hm : mapItem ArmorEnergyRules mapDimItemToProcessItem
                   armorEnergyRules modsForSlot d ∈ ms).
    { apply list_elem_of_fmap. by exists d. }
    assert (Hdet : forall m1 m2, m1 ∈ ms -> m2 ∈ ms ->
                     dimItem m1 = dimItem m2 -> m1 = m2).
    { intros m1 m2. apply mapped_eq. }
    exact (buildCache_lookup resolvedStatConstraints requiredModTags ms Hdet _ Hm).
  - destruct (buildCache _ _ ms !! d) eqn:E; [|done].
    exfalso. apply Hd. rewrite <- Hmap.
    apply (proj1 (buildCache_dom resolvedStatConstraints requiredModTags ms d)).
    rewrite E. by eexists.
Qed.

(** ** More on the pruning loop *)

Lemma pruneStep_sublist (better : MappedItem -> MappedItem -> bool) keepSet item :
  pruneStep better keepSet item `sublist_of` keepSet ++ [item].
Proof.
  destruct (pruneStep_spec better keepSet item) as (d & pre' & E & Hsub & _).
  rewrite E. destruct d.
  - by apply sublist_inserts_r.
  - by apply sublist_app.
Qed.

Lemma prune_sublist (better : MappedItem -> MappedItem -> bool) group :
  prune better group `sublist_of` group.
Proof.
  unfold prune. induction group as [|item group IH] using rev_ind; [done|].
  rewrite fold_left_app. simpl.
  etrans; [apply pruneStep_sublist|]. by apply sublist_app.
Qed.

(** X3. The kept set is a sublist of the bucket: the loop keeps items in
    the order in which they came and never adds or repeats one. This holds
    for any comparison the loop is run with. *)
Theorem X3_prune_sublist (better : MappedItem -> MappedItem -> bool)
    (group : list MappedItem) :
  prune better group `sublist_of` group.
Proof. apply prune_sublist. Qed.

Lemma pruneScan_noop (better : MappedItem -> MappedItem -> bool) item :
  forall pre suf,
    (forall k, k ∈ pre -> better k item = false /\ better item k = false) ->
    pruneScan better (length pre) (pre ++ suf) item = (false, pre ++ suf).
Proof.
  induction pre as [|x pre IH] using rev_ind; intros suf Hpre; [done|].
  rewrite length_app. simpl. rewrite Nat.add_1_r. simpl.
  rewrite <- app_assoc. simpl. rewrite list_lookup_middle by done.
  destruct (Hpre x) as [-> ->]; [apply elem_of_app; right; by left|].
  apply IH. intros k Hk. apply Hpre, elem_of_app. by left.
Qed.

Lemma prune_antichain_id (better : MappedItem -> MappedItem -> bool) group :
  antichain better group -> prune better group = group.
Proof.
  unfold prune. induction group as [|item group IH] using rev_ind; intros Ha; [done|].
  rewrite fold_left_app. simpl. rewrite IH.
  - unfold pruneStep.
    pose proof (pruneScan_noop better item group []) as Hn.
    rewrite !app_nil_r in Hn. rewrite Hn; [done|].
    intros k Hk. split; apply Ha; apply elem_of_app;
      first [by left | right; by left].
  - intros x y Hx Hy. apply Ha; apply elem_of_app; by left.
Qed.

(** X4. When no item of a list is strictly better than another one, the
    loop keeps the whole list as it is. *)
Theorem X4_prune_keeps_incomparable (better : MappedItem -> MappedItem -> bool)
    (group : list MappedItem) :
  (forall x y, x ∈ group -> y ∈ group -> better x y = false) ->
  prune better group = group.
Proof. apply prune_antichain_id. Qed.

Lemma X4_witness :
  prune (isStrictlyBetter (Sample.cache Sample.helmets))
    [Sample.m Sample.vendor; Sample.m Sample.owned] =
  [Sample.m Sample.vendor; Sample.m Sample.owned].
Proof.
  apply (X4_prune_keeps_incomparable
           (isStrictlyBetter (Sample.cache Sample.helmets))
           [Sample.m Sample.vendor; Sample.m Sample.owned]).
  intros x y Hx%list_elem_of_In Hy%list_elem_of_In.
  simpl in Hx, Hy.
  destruct Hx as [<-|[<-|[]]], Hy as [<-|[<-|[]]]; by vm_compute.
Defined.

Section Pruning.
Context (ArmorEnergyRules : Type).
Context (mapDimItemToProcessItem :
  DimItem.t -> ArmorEnergyRules -> list PluggableInventoryItemDefinition ->
  ProcessItem.t).
Context (getModTypeTagByPlugCategoryHash : Z -> option string).
Context (items : list DimItem.t).
Context (resolvedStatConstraints : list ResolvedStatConstraint).
Context (armorEnergyRules : ArmorEnergyRules).
Context (activityMods modsForSlot : list PluggableInventoryItemDefinition).

Local Abbreviation requiredModTags :=
  (requiredModTagsOf getModTypeTagByPlugCategoryHash activityMods).
Local Abbreviation mappedItems :=
  (mapItems ArmorEnergyRules mapDimItemToProcessItem armorEnergyRules modsForSlot items).
Local Abbreviation cache :=
  (buildCache resolvedStatConstraints requiredModTags mappedItems).

(** X5. On the items computed from the input, [isStrictlyBetter] is a
    strict partial order: no item is strictly better than itself, two
    items are never strictly better than each other, and strictly better
    composes. *)
Theorem X5_isStrictlyBetter_strict_order x y z :
  x ∈ mappedItems -> y ∈ mappedItems -> z ∈ mappedItems ->
  isStrictlyBetter cache x x = false /\
  (isStrictlyBetter cache x y = true -> isStrictlyBetter cache y x = false) /\
  (isStrictlyBetter cache x y = true -> isStrictlyBetter cache y z = true ->
   isStrictlyBetter cache x z = true).
Proof.
  intros Hx Hy Hz. refine (conj _ (conj _ _)).
  - by apply better_irrefl.
  - intros Hxy. destruct (isStrictlyBetter cache y x) eqn:Hyx; [|done].
    pose proof (better_trans _ _ _ _ _ _ _ _ x y x Hx Hy Hx Hxy Hyx) as Hxx.
    by rewrite better_irrefl in Hxx.
  - by apply better_trans.
Qed.

(** X6. No undominated item is lost: every item of a bucket is kept, or a
    kept item dominates it. In particular the kept set of a bucket is
    never empty. *)
Theorem X6_pruned_items_are_dominated k bucket x :
  (k, bucket) ∈ energyGroups mappedItems ->
  x ∈ bucket ->
  prune (isStrictlyBetter cache) bucket <> [] /\
  (x ∈ prune (isStrictlyBetter cache) bucket \/
   exists kept,
     kept ∈ prune (isStrictlyBetter cache) bucket /\
     dominates resolvedStatConstraints requiredModTags
       (processItem kept) (processItem x)).
Proof.
  intros Hb Hx. destruct (bucket_order ArmorEnergyRules mapDimItemToProcessItem
              getModTypeTagByPlugCategoryHash items resolvedStatConstraints
              armorEnergyRules activityMods modsForSlot k bucket Hb)
    as (Hirr & Htr & Hok).
  destruct (prune_invariant _ _ Hirr Htr bucket Hok) as (Hsub & _ & Hc).
  assert (Hcov : x ∈ prune (isStrictlyBetter cache) bucket \/
    exists kept, kept ∈ prune (isStrictlyBetter cache) bucket /\
      dominates resolvedStatConstraints requiredModTags
        (processItem kept) (processItem x)).
  { destruct (Hc x Hx) as [?|(kept & Hk & Hbt)]; [by left|right].
    exists kept. split; [done|].
    apply (isStrictlyBetter_dominates ArmorEnergyRules mapDimItemToProcessItem
             resolvedStatConstraints requiredModTags armorEnergyRules
             modsForSlot items); auto. }
  split; [|done].
  intros Hnil. rewrite Hnil in Hcov.
  destruct Hcov as [H|(kept & H & _)]; by apply elem_of_nil in H.
Qed.

(** X7. Pruning twice is pruning once: the loop run over the kept set of
    a bucket gives that kept set back. *)
Theorem X7_prune_idempotent k bucket :
  (k, bucket) ∈ energyGroups mappedItems ->
  prune (isStrictlyBetter cache) (prune (isStrictlyBetter cache) bucket) =
  prune (isStrictlyBetter cache) bucket.
Proof.
  intros Hb. destruct (bucket_order ArmorEnergyRules mapDimItemToProcessItem
              getModTypeTagByPlugCategoryHash items resolvedStatConstraints
              armorEnergyRules activityMods modsForSlot k bucket Hb)
    as (Hirr & Htr & Hok).
  destruct (prune_invariant _ _ Hirr Htr bucket Hok) as (_ & Ha & _).
  by apply prune_antichain_id.
Qed.

End Pruning.

Lemma X5_witness :
  isStrictlyBetter (Sample.cache Sample.helmets)
    (Sample.m Sample.owned) (Sample.m Sample.owned) = false /\
  (isStrictlyBetter (Sample.cache Sample.helmets)
     (Sample.m Sample.owned) (Sample.m Sample.worse) = true ->
   isStrictlyBetter (Sample.cache Sample.helmets)
     (Sample.m Sample.worse) (Sample.m Sample.owned) = false) /\
  (isStrictlyBetter (Sample.cache Sample.helmets)
     (Sample.m Sample.owned) (Sample.m Sample.worse) = true ->
   isStrictlyBetter (Sample.cache Sample.helmets)
     (Sample.m Sample.worse) (Sample.m Sample.vendor) = true ->
   isStrictlyBetter (Sample.cache Sample.helmets)
     (Sample.m Sample.owned) (Sample.m Sample.vendor) = true).
Proof.
  apply (X5_isStrictlyBetter_strict_order unit Sample.toProcessItem
           Sample.tagTable Sample.helmets Sample.constraints tt
           [Sample.raidMod] []
           (Sample.m Sample.owned) (Sample.m Sample.worse) (Sample.m Sample.vendor)).
  - in_computed.
  - in_computed.
  - in_computed.
Defined.

Lemma X6_witness :
  prune (isStrictlyBetter (Sample.cache Sample.helmets)) Sample.legendaryBucket <> [] /\
  (Sample.m Sample.worse ∈
     prune (isStrictlyBetter (Sample.cache Sample.helmets)) Sample.legendaryBucket \/
   exists kept,
     kept ∈ prune (isStrictlyBetter (Sample.cache Sample.helmets))
              Sample.legendaryBucket /\
     dominates Sample.constraints Sample.required
       (processItem kept) (processItem (Sample.m Sample.worse))).
Proof.
  apply (X6_pruned_items_are_dominated unit Sample.toProcessItem
           Sample.tagTable Sample.helmets Sample.constraints tt
           [Sample.raidMod] [] "legendary-" Sample.legendaryBucket
           (Sample.m Sample.worse) sample_bucket).
  in_computed.
Defined.

Lemma X7_witness :
  prune (isStrictlyBetter (Sample.cache Sample.helmets))
    (prune (isStrictlyBetter (Sample.cache Sample.helmets)) Sample.legendaryBucket) =
  prune (isStrictlyBetter (Sample.cache Sample.helmets)) Sample.legendaryBucket.
Proof.
  exact (X7_prune_idempotent unit Sample.toProcessItem
           Sample.tagTable Sample.helmets Sample.constraints tt
           [Sample.raidMod] [] "legendary-" Sample.legendaryBucket sample_bucket).
Defined.

(** ** The result of [mapItemsToGroups] as a whole *)

Lemma groupBy_covers {A} (key : A -> string) (l : list A) x :
  x ∈ l -> exists g, (key x, g) ∈ Js.groupBy key l /\ x ∈ g.
Proof.
  intros Hx. rewrite <- (groupBy_perm key l) in Hx.
  apply list_elem_of_In, in_concat in Hx as (g & Hg & Hx).
  apply in_map_iff in Hg as ([k g'] & <- & Hkg). simpl in *.
  apply list_elem_of_In in Hkg, Hx.
  rewrite <- (groupBy_same_key key l k g' x Hkg Hx) in Hkg. by exists g'.
Qed.

Lemma groupBy_key_unique {A} (key : A -> string) (l : list A) k g1 g2 :
  (k, g1) ∈ Js.groupBy key l -> (k, g2) ∈ Js.groupBy key l -> g1 = g2.
Proof.
  destruct (groupBy_grouped key l) as [Hnd _].
  revert Hnd. generalize (Js.groupBy key l). intros gs.
  induction gs as [|[k0 g0] gs IH]; simpl; intros Hnd H1 H2.
  - by apply elem_of_nil in H1.
  - inversion Hnd as [|? ? Hnin Hnd']; subst.
    assert (Hfst : forall g, (k0, g) ∈ gs -> False).
    { intros g Hg. apply Hnin. apply list_elem_of_fmap. by exists (k0, g). }
    apply elem_of_cons in H1 as [E1|H1]; apply elem_of_cons in H2 as [E2|H2].
    + congruence.
    + inversion E1; subst. by destruct (Hfst g2).
    + inversion E2; subst. by destruct (Hfst g1).
    + by apply IH.
Qed.

Lemma groupsOfKeepSet_perm (getUserItemTag : TagLookup)
    (cache : gmap DimItem.t Info.t) (keepSet : list MappedItem) :
  concat (map ItemGroup.items (groupsOfKeepSet getUserItemTag cache keepSet))
    ≡ₚ map dimItem keepSet /\
  (length (groupsOfKeepSet getUserItemTag cache keepSet) <= length keepSet)%nat.
Proof.
  unfold groupsOfKeepSet, sortedGroups.
  set (key := fun m => finalGroupingFn cache (dimItem m)).
  destruct (groups_of_grouped (groupComparator getUserItemTag)
              (Js.groupBy key keepSet)) as [H1 H2].
  - destruct (groupBy_grouped key keepSet) as [_ Hall].
    eapply Forall_impl; [exact Hall|]. by intros kg [? _].
  - simpl. split.
    + by rewrite H1, (groupBy_perm key keepSet).
    + rewrite H2. apply groupBy_length.
Qed.

Section Result.
Context (ArmorEnergyRules : Type).
Context (mapDimItemToProcessItem :
  DimItem.t -> ArmorEnergyRules -> list PluggableInventoryItemDefinition ->
  ProcessItem.t).
Context (getModTypeTagByPlugCategoryHash : Z -> option string).
Context (resolvedStatConstraints : list ResolvedStatConstraint).
Context (armorEnergyRules : ArmorEnergyRules).
Context (activityMods modsForSlot : list PluggableInventoryItemDefinition).
Context (getUserItemTag : TagLookup).

Local Abbreviation requiredModTags :=
  (requiredModTagsOf getModTypeTagByPlugCategoryHash activityMods).
Local Abbreviation toMapped :=
  (mapItem ArmorEnergyRules mapDimItemToProcessItem armorEnergyRules modsForSlot).
Local Abbreviation mappedItems items :=
  (mapItems ArmorEnergyRules mapDimItemToProcessItem armorEnergyRules modsForSlot items).
Local Abbreviation cache items :=
  (buildCache resolvedStatConstraints requiredModTags (mappedItems items)).
Local Abbreviation groupsOf items :=
  (mapItemsToGroups ArmorEnergyRules mapDimItemToProcessItem
     getModTypeTagByPlugCategoryHash items resolvedStatConstraints
     armorEnergyRules activityMods modsForSlot getUserItemTag).

Lemma mapped_dimItems items : map dimItem (mappedItems items) = items.
Proof. unfold mapItems. rewrite map_map. simpl. apply map_id. Qed.

Lemma groups_of_buckets (c : gmap DimItem.t Info.t)
    (bs : list (string * list MappedItem)) :
  let groups :=
    flat_map (fun kg => groupsOfKeepSet getUserItemTag c
                          (prune (isStrictlyBetter c) (snd kg))) bs in
  concat (map ItemGroup.items groups) ⊆+ map dimItem (concat (map snd bs)) /\
  (length groups <= length (concat (map snd bs)))%nat.
Proof.
  induction bs as [|[k bucket] bs [IH1 IH2]]; simpl; [done|].
  destruct (groupsOfKeepSet_perm getUserItemTag c
              (prune (isStrictlyBetter c) bucket)) as [Hp Hl].
  pose proof (prune_sublist (isStrictlyBetter c) bucket) as Hsub.
  split.
  - rewrite !map_app, concat_app. apply submseteq_app; [|done].
    rewrite Hp. apply fmap_submseteq. by apply sublist_submseteq.
  - rewrite !length_app. apply sublist_length in Hsub. lia.
Qed.

(** X8. The members of the groups are input items, each input occurrence
    used at most once, and there are at most as many groups as input
    items. *)
Theorem X8_groups_drawn_from_input (items : list DimItem.t) :
  concat (map ItemGroup.items (groupsOf items)) ⊆+ items /\
  (length (groupsOf items) <= length items)%nat.
Proof.
  unfold mapItemsToGroups.
  destruct (groups_of_buckets (cache items) (energyGroups (mappedItems items)))
    as [H1 H2].
  unfold energyGroups in *.
  pose proof (groupBy_perm (fun m => firstPassGroupingFn (processItem m))
                (mappedItems items)) as Hp.
  split.
  - etrans; [exact H1|]. rewrite Hp, mapped_dimItems. done.
  - etrans; [exact H2|]. rewrite Hp. unfold mapItems. by rewrite length_map.
Qed.

(** A class of a kept set gives a group of the result. *)
Lemma group_intro items k bucket kf grp :
  (k, bucket) ∈ energyGroups (mappedItems items) ->
  (kf, grp) ∈ Js.groupBy (fun m => finalGroupingFn (cache items) (dimItem m))
                (prune (isStrictlyBetter (cache items)) bucket) ->
  exists g, g ∈ groupsOf items /\
    forall m, m ∈ grp -> dimItem m ∈ ItemGroup.items g.
Proof.
  intros Hb Hg.
  assert (Hne : grp <> []).
  { destruct (groupBy_grouped
                (fun m => finalGroupingFn (cache items) (dimItem m))
                (prune (isStrictlyBetter (cache items)) bucket)) as [_ Hall].
    rewrite Forall_forall in Hall. by destruct (Hall _ Hg). }
  destruct (toItemGroup_sorted (groupComparator getUserItemTag) grp Hne)
    as (g & Hto & Hitems).
  exists g. split.
  - unfold mapItemsToGroups, groupsOfKeepSet, sortedGroups.
    apply list_elem_of_In, in_flat_map. exists (k, bucket).
    split; [by apply list_elem_of_In|].
    apply in_flat_map. exists (Js.sort (groupComparator getUserItemTag) grp).
    split; [|rewrite Hto; by left].
    apply in_map_iff. exists (kf, grp). split; [done|by apply list_elem_of_In].
  - intros m Hm. rewrite Hitems. apply list_elem_of_fmap. exists m.
    split; [done|]. by rewrite sort_perm.
Qed.

(** A kept item of a bucket is a member of a group of the result. *)
Lemma kept_in_group items k bucket m :
  (k, bucket) ∈ energyGroups (mappedItems items) ->
  m ∈ prune (isStrictlyBetter (cache items)) bucket ->
  exists g, g ∈ groupsOf items /\ dimItem m ∈ ItemGroup.items g.
Proof.
  intros Hb Hm.
  destruct (groupBy_covers (fun m => finalGroupingFn (cache items) (dimItem m))
              _ m Hm) as (grp & Hg & Hin).
  destruct (group_intro items k bucket _ grp Hb Hg) as (g & Hgin & Hall).
  exists g. split; [done|]. by apply Hall.
Qed.

Lemma item_represented (items : list DimItem.t) (d : DimItem.t) :
  d ∈ items ->
  (exists g, g ∈ groupsOf items /\ d ∈ ItemGroup.items g) \/
  (exists g d', g ∈ groupsOf items /\ d' ∈ ItemGroup.items g /\
     dominates resolvedStatConstraints requiredModTags
       (mapDimItemToProcessItem d' armorEnergyRules modsForSlot)
       (mapDimItemToProcessItem d armorEnergyRules modsForSlot)).
Proof.
  intros Hd.
  assert (Hm : toMapped d ∈ mappedItems items).
  { apply list_elem_of_fmap. by exists d. }
  destruct (groupBy_covers (fun m => firstPassGroupingFn (processItem m))
              (mappedItems items) (toMapped d) Hm) as (bucket & Hb & Hin).
  fold (energyGroups (mappedItems items)) in Hb.
  destruct (bucket_order ArmorEnergyRules mapDimItemToProcessItem
              getModTypeTagByPlugCategoryHash items resolvedStatConstraints
              armorEnergyRules activityMods modsForSlot _ bucket Hb)
    as (Hirr & Htr & Hok).
  destruct (prune_invariant _ _ Hirr Htr bucket Hok) as (Hsub & _ & Hc).
  destruct (Hc _ Hin) as [Hk|(kept & Hk & Hbt)].
  - left. destruct (kept_in_group items _ bucket _ Hb Hk) as (g & Hg & Hdg).
    by exists g.
  - right. destruct (kept_in_group items _ bucket _ Hb Hk) as (g & Hg & Hdg).
    exists g, (dimItem kept). split; [done|]. split; [done|].
    assert (Hkm : kept ∈ mappedItems items) by (by apply Hok, Hsub).
    apply (isStrictlyBetter_dominates ArmorEnergyRules mapDimItemToProcessItem
             resolvedStatConstraints requiredModTags armorEnergyRules
             modsForSlot items) in Hbt; [|done|done].
    apply mapped_dimItem in Hkm. rewrite Hkm in Hbt at 1. exact Hbt.
Qed.

(** X9. No input item goes unrepresented: each one is a member of a
    group, or some member of a group dominates it. *)
Theorem X9_every_item_represented (items : list DimItem.t) (d : DimItem.t) :
  d ∈ items ->
  (exists g, g ∈ groupsOf items /\ d ∈ ItemGroup.items g) \/
  (exists g d', g ∈ groupsOf items /\ d' ∈ ItemGroup.items g /\
     dominates resolvedStatConstraints requiredModTags
       (mapDimItemToProcessItem d' armorEnergyRules modsForSlot)
       (mapDimItemToProcessItem d armorEnergyRules modsForSlot)).
Proof. apply item_represented. Qed.

(** X10. The result is empty exactly when the input is. *)
Theorem X10_no_groups_iff_no_items (items : list DimItem.t) :
  groupsOf items = [] <-> items = [].
Proof.
  split.
  - intros Hnil. destruct items as [|d items]; [done|]. exfalso.
    destruct (item_represented (d :: items) d) as [(g & Hg & _)|(g & _ & Hg & _)];
      [by left| |]; rewrite Hnil in Hg; by apply elem_of_nil in Hg.
  - by intros ->.
Qed.

End Result.

Lemma X9_witness :
  (exists g, g ∈ Sample.groups Sample.helmets /\ Sample.worse ∈ ItemGroup.items g) \/
  (exists g d', g ∈ Sample.groups Sample.helmets /\ d' ∈ ItemGroup.items g /\
     dominates Sample.constraints Sample.required
       (Sample.toProcessItem d' tt []) (Sample.toProcessItem Sample.worse tt [])).
Proof.
  apply (X9_every_item_represented unit Sample.toProcessItem Sample.tagTable
           Sample.constraints tt [Sample.raidMod] [] None
           Sample.helmets Sample.worse).
  in_computed.
Defined.

Lemma isStrictlyBetter_existing_ext (c : gmap DimItem.t Info.t) y m1 m2 :
  cacheGet c (dimItem m1) = cacheGet c (dimItem m2) ->
  isStrictlyBetter c y m1 = isStrictlyBetter c y m2.
Proof. unfold isStrictlyBetter. by intros ->. Qed.

Section Twins.
Context (ArmorEnergyRules : Type).
Context (mapDimItemToProcessItem :
  DimItem.t -> ArmorEnergyRules -> list PluggableInventoryItemDefinition ->
  ProcessItem.t).
Context (getModTypeTagByPlugCategoryHash : Z -> option string).
Context (resolvedStatConstraints : list ResolvedStatConstraint).
Context (armorEnergyRules : ArmorEnergyRules).
Context (activityMods modsForSlot : list PluggableInventoryItemDefinition).
Context (getUserItemTag : TagLookup).

Local Abbreviation requiredModTags :=
  (requiredModTagsOf getModTypeTagByPlugCategoryHash activityMods).
Local Abbreviation toMapped :=
  (mapItem ArmorEnergyRules mapDimItemToProcessItem armorEnergyRules modsForSlot).
Local Abbreviation mappedItems items :=
  (mapItems ArmorEnergyRules mapDimItemToProcessItem armorEnergyRules modsForSlot items).
Local Abbreviation cache items :=
  (buildCache resolvedStatConstraints requiredModTags (mappedItems items)).
Local Abbreviation groupsOf items :=
  (mapItemsToGroups ArmorEnergyRules mapDimItemToProcessItem
     getModTypeTagByPlugCategoryHash items resolvedStatConstraints
     armorEnergyRules activityMods modsForSlot getUserItemTag).

(** X11. Items that cannot be told apart are not separated: when two
    input items fall into the same first-pass bucket and have the same
    cached record, every group that holds one of them holds the other. *)
Theorem X11_twins_share_their_group (items : list DimItem.t)
    (d1 d2 : DimItem.t) (g : ItemGroup.t) :
  d1 ∈ items -> d2 ∈ items ->
  firstPassGroupingFn (mapDimItemToProcessItem d1 armorEnergyRules modsForSlot) =
    firstPassGroupingFn (mapDimItemToProcessItem d2 armorEnergyRules modsForSlot) ->
  cacheEntry resolvedStatConstraints requiredModTags (toMapped d1) =
    cacheEntry resolvedStatConstraints requiredModTags (toMapped d2) ->
  g ∈ groupsOf items ->
  d1 ∈ ItemGroup.items g -> d2 ∈ ItemGroup.items g.
Proof.
  intros Hd1 Hd2 Hkey Hinfo Hg H1.
  apply group_origin in Hg
    as (k & bucket & kf & grp & first & rest & Hb & Hgrp & Es & ->).
  cbn [ItemGroup.items] in *.
  edestruct member_origin as (G1 & K1 & B1 & M1 & F1);
    [exact Hb | exact Hgrp | exact Es | exact H1 |].
  assert (M2 : toMapped d2 ∈ mappedItems items).
  { apply list_elem_of_fmap. by exists d2. }
  assert (Hget : cacheGet (cache items) (dimItem (toMapped d1)) =
                 cacheGet (cache items) (dimItem (toMapped d2))).
  { rewrite (cacheGet_mapped _ _ _ _ _ _ items (toMapped d1) M1).
    rewrite (cacheGet_mapped _ _ _ _ _ _ items (toMapped d2) M2). exact Hinfo. }
  (* the second item lies in the same bucket *)
  destruct (groupBy_covers (fun m => firstPassGroupingFn (processItem m))
              (mappedItems items) (toMapped d2) M2) as (bucket2 & Hb2 & B2).
  fold (energyGroups (mappedItems items)) in Hb2.
  pose proof (bucket_key _ _ _ _ _ _ _ _ Hb B1) as Kb. simpl in Kb, Hb2.
  rewrite <- Hkey, Kb in Hb2.
  rewrite <- (groupBy_key_unique _ _ _ _ _ Hb Hb2) in B2.
  (* it is kept as well *)
  destruct (bucket_order ArmorEnergyRules mapDimItemToProcessItem
              getModTypeTagByPlugCategoryHash items resolvedStatConstraints
              armorEnergyRules activityMods modsForSlot k bucket Hb)
    as (Hirr & Htr & Hok).
  assert (K2 : toMapped d2 ∈ prune (isStrictlyBetter (cache items)) bucket).
  { apply (prune_maximal _ _ Hirr Htr bucket _ Hok).
    split; [done|]. intros y Hy.
    rewrite <- (isStrictlyBetter_existing_ext _ y _ _ Hget).
    by apply (prune_maximal _ _ Hirr Htr bucket (toMapped d1) Hok). }
  (* and it has the same final key, hence the same class *)
  destruct (groupBy_covers
              (fun m => finalGroupingFn (cache items) (dimItem m))
              _ (toMapped d2) K2) as (grp2 & Hg2 & G2).
  assert (F2 : finalGroupingFn (cache items) d2 = kf).
  { rewrite <- F1. unfold finalGroupingFn.
    change d1 with (dimItem (toMapped d1)). change d2 with (dimItem (toMapped d2)).
    by rewrite Hget. }
  simpl in Hg2. rewrite F2 in Hg2.
  rewrite <- (groupBy_key_unique _ _ _ _ _ Hgrp Hg2) in G2.
  rewrite <- Es. apply list_elem_of_fmap. exists (toMapped d2).
  split; [done|]. by rewrite sort_perm.
Qed.

End Twins.

Lemma X11_witness :
  let g := {| ItemGroup.canonicalProcessItem := Sample.toProcessItem Sample.owned tt [];
              ItemGroup.items := [Sample.owned; Sample.vendor] |} in
  Sample.vendor ∈ ItemGroup.items g.
Proof.
  intros g.
  apply (X11_twins_share_their_group unit Sample.toProcessItem Sample.tagTable
           Sample.constraints tt [Sample.raidMod] [] None
           Sample.helmets Sample.owned Sample.vendor g).
  - in_computed.
  - in_computed.
  - reflexivity.
  - reflexivity.
  - in_computed.
  - in_computed.
Defined.

(** ** The final key and the in-group comparator *)

(** X12. For input items, and tags without commas, the final grouping key
    is a faithful encoding: two items have the same key exactly when their
    cached stat vectors, energy capacities and relevant mod tags are the
    same. *)
Theorem X12_final_key_faithful
    (ArmorEnergyRules : Type)
    (mapDimItemToProcessItem :
       DimItem.t -> ArmorEnergyRules -> list PluggableInventoryItemDefinition ->
       ProcessItem.t)
    (getModTypeTagByPlugCategoryHash : Z -> option string)
    (items : list DimItem.t)
    (resolvedStatConstraints : list ResolvedStatConstraint)
    (armorEnergyRules : ArmorEnergyRules)
    (activityMods modsForSlot : list PluggableInventoryItemDefinition)
    (d1 d2 : DimItem.t) :
  (forall h t, getModTypeTagByPlugCategoryHash h = Some t ->
               allChars notComma t = true) ->
  d1 ∈ items -> d2 ∈ items ->
  let requiredModTags :=
    requiredModTagsOf getModTypeTagByPlugCategoryHash activityMods in
  let cache :=
    buildCache resolvedStatConstraints requiredModTags
      (mapItems ArmorEnergyRules mapDimItemToProcessItem armorEnergyRules
         modsForSlot items) in
  let info d :=
    cacheEntry resolvedStatConstraints requiredModTags
      (mapItem ArmorEnergyRules mapDimItemToProcessItem armorEnergyRules modsForSlot d) in
  finalGroupingFn cache d1 = finalGroupingFn cache d2 <->
  Info.stats (info d1) = Info.stats (info d2) /\
  Info.energyCapacity (info d1) = Info.energyCapacity (info d2) /\
  Info.relevantModSeasons (info d1) = Info.relevantModSeasons (info d2).
Proof.
  intros Htable H1 H2 requiredModTags cache info.
  assert (M1 : mapItem ArmorEnergyRules mapDimItemToProcessItem armorEnergyRules
                 modsForSlot d1 ∈
               mapItems ArmorEnergyRules mapDimItemToProcessItem armorEnergyRules
                 modsForSlot items).
  { apply list_elem_of_fmap. by exists d1. }
  assert (M2 : mapItem ArmorEnergyRules mapDimItemToProcessItem armorEnergyRules
                 modsForSlot d2 ∈
               mapItems ArmorEnergyRules mapDimItemToProcessItem armorEnergyRules
                 modsForSlot items).
  { apply list_elem_of_fmap. by exists d2. }
  split.
  - intros E.
    apply (finalKey_inj ArmorEnergyRules mapDimItemToProcessItem
             getModTypeTagByPlugCategoryHash resolvedStatConstraints
             armorEnergyRules activityMods modsForSlot items _ _
             (required_tagOk getModTypeTagByPlugCategoryHash activityMods Htable)
             M1 M2 E).
  - intros (Hs & He & Ht). unfold finalGroupingFn, cache.
    pose proof (cacheGet_mapped ArmorEnergyRules mapDimItemToProcessItem
                  resolvedStatConstraints requiredModTags armorEnergyRules
                  modsForSlot items _ M1) as G1.
    pose proof (cacheGet_mapped ArmorEnergyRules mapDimItemToProcessItem
                  resolvedStatConstraints requiredModTags armorEnergyRules
                  modsForSlot items _ M2) as G2.
    simpl in G1, G2. rewrite G1, G2. fold (info d1) (info d2).
    by rewrite Hs, He, Ht.
Qed.

Lemma X12_witness :
  finalGroupingFn (Sample.cache Sample.helmets) Sample.owned =
    finalGroupingFn (Sample.cache Sample.helmets) Sample.vendor <->
  Info.stats (cacheEntry Sample.constraints Sample.required (Sample.m Sample.owned)) =
    Info.stats (cacheEntry Sample.constraints Sample.required (Sample.m Sample.vendor)) /\
  Info.energyCapacity
    (cacheEntry Sample.constraints Sample.required (Sample.m Sample.owned)) =
    Info.energyCapacity
      (cacheEntry Sample.constraints Sample.required (Sample.m Sample.vendor)) /\
  Info.relevantModSeasons
    (cacheEntry Sample.constraints Sample.required (Sample.m Sample.owned)) =
    Info.relevantModSeasons
      (cacheEntry Sample.constraints Sample.required (Sample.m Sample.vendor)).
Proof.
  apply (X12_final_key_faithful unit Sample.toProcessItem Sample.tagTable
           Sample.helmets Sample.constraints tt [Sample.raidMod] []
           Sample.owned Sample.vendor sample_table_no_comma).
  - in_computed.
  - in_computed.
Defined.

Lemma groupComparator_zero getTag x y :
  groupComparator getTag x y = 0 <->
  default 0 (DimItem.energy (dimItem x)) = default 0 (DimItem.energy (dimItem y)) /\
  DimItem.vendor (dimItem x) = DimItem.vendor (dimItem y) /\
  isFavorite getTag (dimItem x) = isFavorite getTag (dimItem y) /\
  DimItem.power (dimItem x) = DimItem.power (dimItem y) /\
  DimItem.equipped (dimItem x) = DimItem.equipped (dimItem y).
Proof.
  unfold groupComparator, isFavorite, chainComparator, compareBy.
  destruct x as [a pa], y as [b pb]. simpl.
  generalize (default 0 (DimItem.energy a)) (default 0 (DimItem.energy b)).
  generalize (isNotFavorite getTag a) (isNotFavorite getTag b).
  destruct a as [ia ha ea va pwa qa], b as [ib hb eb vb pwb qb]. simpl.
  intros fa fb za zb.
  destruct va, vb, fa, fb, qa, qb; simpl;
    repeat match goal with
           | |- context [?u <? ?v] => destruct (Z.ltb_spec u v)
           | |- context [?u >? ?v] => destruct (Z.gtb_spec u v)
           end; simpl; split; intros; try lia; intuition (try lia; try congruence).
Qed.

(** X13. [groupComparator] is a comparator a sort can rely on: swapping
    the arguments negates the result, "not after" composes, and the result
    is 0 exactly when the two items agree on energy capacity, vendor
    origin, favorite tag, power and equipped state. *)
Theorem X13_groupComparator_consistent (getTag : TagLookup) (a b c : MappedItem) :
  groupComparator getTag b a = - groupComparator getTag a b /\
  (groupComparator getTag a b <= 0 -> groupComparator getTag b c <= 0 ->
   groupComparator getTag a c <= 0) /\
  (groupComparator getTag a b = 0 <->
   default 0 (DimItem.energy (dimItem a)) = default 0 (DimItem.energy (dimItem b)) /\
   DimItem.vendor (dimItem a) = DimItem.vendor (dimItem b) /\
   isFavorite getTag (dimItem a) = isFavorite getTag (dimItem b) /\
   DimItem.power (dimItem a) = DimItem.power (dimItem b) /\
   DimItem.equipped (dimItem a) = DimItem.equipped (dimItem b)).
Proof.
  pose proof (groupComparator_ThreeWay getTag) as H.
  refine (conj _ (conj _ _)).
  - apply cmp_opp.
  - apply cmp_trans.
  - apply groupComparator_zero.
Qed.

(** ** What [runProcess] hands to the worker *)

Section Payload.
Context (ArmorEnergyRules : Type).
Context (mapDimItemToProcessItem :
  DimItem.t -> ArmorEnergyRules -> list PluggableInventoryItemDefinition ->
  ProcessItem.t).
Context (getModTypeTagByPlugCategoryHash : Z -> option string).
Context (BucketHashes : ArmorBuckets).
Context (resolvedStatConstraints : list ResolvedStatConstraint).
Context (armorEnergyRules : ArmorEnergyRules) (lockedModMap : ModMap).
Context (getUserItemTag : TagLookup).

Local Abbreviation groupsFor entry :=
  (mapItemsToGroups ArmorEnergyRules mapDimItemToProcessItem
     getModTypeTagByPlugCategoryHash (snd entry) resolvedStatConstraints
     armorEnergyRules (activityMods lockedModMap)
     (default [] (bucketSpecificMods lockedModMap !! fst entry))
     getUserItemTag).
Local Abbreviation bucketStep :=
  (processBucket ArmorEnergyRules mapDimItemToProcessItem
     getModTypeTagByPlugCategoryHash resolvedStatConstraints
     armorEnergyRules lockedModMap getUserItemTag).
Local Abbreviation prepared filteredItems :=
  (prepareItems ArmorEnergyRules mapDimItemToProcessItem
     getModTypeTagByPlugCategoryHash BucketHashes filteredItems
     resolvedStatConstraints armorEnergyRules lockedModMap getUserItemTag).

Lemma pushGroups_lookup bucketHash (gs : list ItemGroup.t) :
  forall st b,
    fst (fold_left (pushGroup bucketHash) gs st) !! b =
    if decide (bucketHash = b)
    then (fun l => l ++ map ItemGroup.canonicalProcessItem gs) <$> fst st !! bucketHash
    else fst st !! b.
Proof.
  induction gs as [|g gs IH]; intros st b; simpl.
  - destruct (decide (bucketHash = b)) as [<-|]; [|done].
    destruct (fst st !! bucketHash); simpl; [|done]. by rewrite app_nil_r.
  - rewrite IH.
    change (fst (pushGroup bucketHash st g))
      with (alter (fun l => l ++ [ItemGroup.canonicalProcessItem g]) bucketHash (fst st)).
    destruct (decide (bucketHash = b)) as [<-|Hne].
    + rewrite lookup_alter_eq. destruct (fst st !! bucketHash); simpl; [|done].
      by rewrite <- app_assoc.
    + by rewrite lookup_alter_ne.
Qed.

Lemma processBucket_lookup st entry b :
  fst (bucketStep st entry) !! b =
  if decide (fst entry = b)
  then Some (map ItemGroup.canonicalProcessItem (groupsFor entry))
  else fst st !! b.
Proof.
  unfold processBucket. rewrite pushGroups_lookup. simpl.
  destruct (decide (fst entry = b)) as [<-|Hne].
  - by rewrite lookup_insert_eq.
  - by rewrite lookup_insert_ne.
Qed.

Lemma processItems_fold entries : forall st,
  NoDup (map fst entries) ->
  (forall entry, entry ∈ entries ->
     fst (fold_left bucketStep entries st) !! fst entry =
       Some (map ItemGroup.canonicalProcessItem (groupsFor entry))) /\
  (forall b, b ∉ map fst entries ->
     fst (fold_left bucketStep entries st) !! b = fst st !! b).
Proof.
  induction entries as [|e es IH]; intros st Hnd; simpl.
  - split; [|done]. intros entry He. by apply elem_of_nil in He.
  - inversion Hnd as [|? ? Hnin Hnd']; subst.
    destruct (IH (bucketStep st e) Hnd') as [IH1 IH2]. split.
    + intros entry [->|He]%elem_of_cons; [|by apply IH1].
      rewrite IH2 by done. rewrite processBucket_lookup.
      by destruct (decide (fst e = fst e)).
    + intros b Hb. rewrite not_elem_of_cons in Hb. destruct Hb as [Hne Hb].
      rewrite IH2 by done. rewrite processBucket_lookup.
      destruct (decide (fst e = b)); [congruence|done].
Qed.

Lemma emptyProcessItems_lookup b :
  emptyProcessItems BucketHashes !! b =
  if decide (b ∈ [Helmet BucketHashes; Gauntlets BucketHashes;
                  ChestArmor BucketHashes; LegArmor BucketHashes;
                  ClassArmor BucketHashes])
  then Some [] else None.
Proof.
  unfold emptyProcessItems. rewrite !lookup_insert, lookup_empty.
  repeat case_decide; subst; try done;
    exfalso;
    repeat match goal with
           | H : ¬ (_ ∈ _) |- _ => rewrite ?not_elem_of_cons in H
           | H : _ ∈ _ |- _ => rewrite ?elem_of_cons, ?elem_of_nil in H
           end; intuition congruence.
Qed.

(** X14. With one entry per bucket in [filteredItems], the worker gets
    for each of these buckets exactly the representatives of the groups of
    that bucket's items, in the order of the groups; an armor bucket with
    no entry gets an empty list, and no other bucket is present. *)
Theorem X14_processItems_per_bucket (filteredItems : list (Z * list DimItem.t)) :
  NoDup (map fst filteredItems) ->
  (forall entry, entry ∈ filteredItems ->
     fst (prepared filteredItems) !! fst entry =
       Some (map ItemGroup.canonicalProcessItem (groupsFor entry))) /\
  (forall b, b ∉ map fst filteredItems ->
     fst (prepared filteredItems) !! b =
       if decide (b ∈ [Helmet BucketHashes; Gauntlets BucketHashes;
                       ChestArmor BucketHashes; LegArmor BucketHashes;
                       ClassArmor BucketHashes])
       then Some [] else None).
Proof.
  intros Hnd. unfold prepareItems.
  destruct (processItems_fold filteredItems (emptyProcessItems BucketHashes, ∅) Hnd)
    as [H1 H2].
  split; [exact H1|]. intros b Hb. rewrite H2 by done.
  apply emptyProcessItems_lookup.
Qed.

Lemma pushGroups_index bucketHash (gs : list ItemGroup.t) : forall st,
  (forall i g, snd (fold_left (pushGroup bucketHash) gs st) !! i = Some g ->
     snd st !! i = Some g \/
     (g ∈ gs /\ ProcessItem.id (ItemGroup.canonicalProcessItem g) = i)) /\
  (forall i, is_Some (snd st !! i) ->
     is_Some (snd (fold_left (pushGroup bucketHash) gs st) !! i)) /\
  (forall g, g ∈ gs ->
     is_Some (snd (fold_left (pushGroup bucketHash) gs st) !!
                ProcessItem.id (ItemGroup.canonicalProcessItem g))).
Proof.
  induction gs as [|g0 gs IH]; intros st; simpl.
  - refine (conj _ (conj _ _)); [by left|done|].
    intros g Hg. by apply elem_of_nil in Hg.
  - destruct (IH (pushGroup bucketHash st g0)) as (I1 & I2 & I3).
    assert (Hgrow : forall i, is_Some (snd st !! i) ->
              is_Some (snd (pushGroup bucketHash st g0) !! i)).
    { intros i Hi. unfold pushGroup. simpl. rewrite lookup_insert_is_Some.
      destruct (decide (ProcessItem.id (ItemGroup.canonicalProcessItem g0) = i));
        [by left|by right]. }
    refine (conj _ (conj _ _)).
    + intros i g Hl. destruct (I1 i g Hl) as [Hst|[Hg Hid]].
      * unfold pushGroup in Hst. simpl in Hst.
        destruct (decide (ProcessItem.id (ItemGroup.canonicalProcessItem g0) = i))
          as [E|E].
        -- rewrite E, lookup_insert_eq in Hst. inversion Hst; subst.
           right. split; [by left|done].
        -- rewrite lookup_insert_ne in Hst by done. by left.
      * right. split; [by right|done].
    + intros i Hi. by apply I2, Hgrow.
    + intros g [->|Hg]%elem_of_cons; [|by apply I3].
      apply I2. unfold pushGroup. simpl. rewrite lookup_insert_eq. by eexists.
Qed.

Lemma itemsById_fold entries : forall st,
  (forall i g, snd (fold_left bucketStep entries st) !! i = Some g ->
     snd st !! i = Some g \/
     (ProcessItem.id (ItemGroup.canonicalProcessItem g) = i /\
      exists entry, entry ∈ entries /\ g ∈ groupsFor entry)) /\
  (forall i, is_Some (snd st !! i) ->
     is_Some (snd (fold_left bucketStep entries st) !! i)) /\
  (forall entry g, entry ∈ entries -> g ∈ groupsFor entry ->
     is_Some (snd (fold_left bucketStep entries st) !!
                ProcessItem.id (ItemGroup.canonicalProcessItem g))).
Proof.
  induction entries as [|e es IH]; intros st; simpl.
  - refine (conj _ (conj _ _)); [by left|done|].
    intros entry g He. by apply elem_of_nil in He.
  - destruct (IH (bucketStep st e)) as (I1 & I2 & I3).
    destruct (pushGroups_index (fst e) (groupsFor e)
                (<[fst e := []]> (fst st), snd st)) as (P1 & P2 & P3).
    refine (conj _ (conj _ _)).
    + intros i g Hl. destruct (I1 i g Hl) as [Hst|(Hid & entry & He & Hg)].
      * destruct (P1 i g Hst) as [?|[Hg Hid]]; [by left|right].
        split; [done|]. exists e. split; [by left|done].
      * right. split; [done|]. exists entry. split; [by right|done].
    + intros i Hi. apply I2. by apply P2.
    + intros entry g [->|He]%elem_of_cons Hg; [|by eapply I3].
      apply I2. by apply P3.
Qed.

(** X15. The index [itemsById] holds nothing but groups computed for a
    bucket of the input, each under the id of its representative, and the
    id of the representative of every computed group is a key of it. *)
Theorem X15_itemsById_holds_the_groups (filteredItems : list (Z * list DimItem.t)) :
  (forall i g, snd (prepared filteredItems) !! i = Some g ->
     ProcessItem.id (ItemGroup.canonicalProcessItem g) = i /\
     exists entry, entry ∈ filteredItems /\ g ∈ groupsFor entry) /\
  (forall entry g, entry ∈ filteredItems -> g ∈ groupsFor entry ->
     is_Some (snd (prepared filteredItems) !!
                ProcessItem.id (ItemGroup.canonicalProcessItem g))).
Proof.
  unfold prepareItems.
  destruct (itemsById_fold filteredItems (emptyProcessItems BucketHashes, ∅))
    as (I1 & _ & I3).
  split; [|exact I3].
  intros i g Hl. destruct (I1 i g Hl) as [Hst|?]; [|done].
  simpl in Hst. by rewrite lookup_empty in Hst.
Qed.

End Payload.

Lemma X14_witness :
  fst (prepareItems unit Sample.toProcessItem Sample.tagTable Sample.buckets
         Sample.filteredItems Sample.constraints tt Sample.lockedMods None)
    !! 3448274439 =
    Some (map ItemGroup.canonicalProcessItem (Sample.groups Sample.helmets)) /\
  fst (prepareItems unit Sample.toProcessItem Sample.tagTable Sample.buckets
         Sample.filteredItems Sample.constraints tt Sample.lockedMods None)
    !! 1585787867 = Some [].
Proof.
  assert (Hnd : NoDup (map fst Sample.filteredItems)).
  { apply NoDup_singleton. }
  destruct (X14_processItems_per_bucket unit Sample.toProcessItem Sample.tagTable
              Sample.buckets Sample.constraints tt Sample.lockedMods None
              Sample.filteredItems Hnd) as [H1 H2].
  split.
  - apply (H1 (3448274439, Sample.helmets)). by left.
  - rewrite H2; [done|].
    intros H%list_elem_of_In. simpl in H. destruct H as [H|[]]. discriminate H.
Defined.

(** ** More on the settlement of [resultPromise] *)

(** X16. [resultPromise] is fulfilled only by the worker's answer: when it
    is fulfilled, the first thing that happened was the worker returning a
    result, and the value is the hydration of that result's sets. *)
Theorem X16_fulfilled_only_by_worker_result
    (itemsById : gmap string ItemGroup.t)
    (events : list Dispatcher.Event) (value : list (list ItemGroup.t)) :
  Dispatcher.resultPromise (Dispatcher.run itemsById events) =
    Dispatcher.Fulfilled value ->
  exists result more,
    events = Dispatcher.WorkerResult result :: more /\
    mapM (fun set => hydrateArmorSet set itemsById) (sets result) = Some value.
Proof.
  destruct events as [|e more]; [discriminate|].
  destruct (run_released itemsById e more) as [_ ->].
  destruct e as [result|reason|]; simpl; [|discriminate|discriminate].
  unfold Dispatcher.onFulfilled.
  destruct (mapM _ _) as [hydratedSets|] eqn:E; simpl; [|discriminate].
  intros [= <-]. by exists result, more.
Qed.

Lemma X16_witness :
  exists result more,
    [Dispatcher.WorkerResult {| sets := [] |}; Dispatcher.CallerCleanup] =
      Dispatcher.WorkerResult result :: more /\
    mapM (fun set => hydrateArmorSet set (∅ : gmap string ItemGroup.t))
      (sets result) = Some [].
Proof.
  apply (X16_fulfilled_only_by_worker_result ∅
           [Dispatcher.WorkerResult {| sets := [] |}; Dispatcher.CallerCleanup] []).
  reflexivity.
Defined.

(** X17. Once [cleanup] has been called nothing changes any more: a
    further [cleanup] does nothing, and a late answer or error of the
    worker is ignored. *)
Theorem X17_nothing_happens_after_cleanup
    (itemsById : gmap string ItemGroup.t)
    (events : list Dispatcher.Event) (e : Dispatcher.Event) :
  let released := Dispatcher.run itemsById (events ++ [Dispatcher.CallerCleanup]) in
  Dispatcher.step itemsById released e = released.
Proof.
  intros released.
  assert (Hwf : wellFormed released).
  { apply run_wellFormed, init_wellFormed. }
  assert (Ht : Dispatcher.terminations released = 1%nat).
  { unfold released, Dispatcher.run. rewrite fold_left_app. simpl.
    apply cleanup_released, run_wellFormed, init_wellFormed. }
  destruct Hwf as [[[Hc Ht']|[Hc _]] _]; [congruence|].
  destruct e as [result|reason|]; simpl;
    unfold Dispatcher.workerCanAnswer, Dispatcher.cleanup;
    rewrite ?Ht, ?Hc, ?andb_false_r; done.
Qed.
